(** * Belette (BabChess): search budget, killer table, move picker and perft

    A shallow embedding of [src/engine.h], [src/movepicker.h] and
    [src/perft.cpp], with the properties of the search core stated and
    proved over it.

    Conventions.
    - C++ integers are [Z]; where the source narrows ([int16_t]) the
      wrap-around is written out.
    - Headers that the three files include but that are not part of the
      development ([chess.h], [move.h], [position.h], [evaluate.h],
      [utils.h], [fixed_vector.h]) are interfaces: their constants and
      functions are the fields of the class [ChessH] and of the record
      [Position]. Module [Ref] gives one instance, standard chess, on which
      the embedded code runs on concrete positions.
    - A C++ array indexed out of range has no behaviour; the embedding
      returns [None] there.
    - [std::sort] is any function that sorts ([StdSort]); nothing depends
      on how it orders equal scores. *)

From Stdlib Require Import ZArith Lia Bool List Sorted Permutation.
From stdpp Require Import base decidable option list sorting.

Local Open Scope Z_scope.

(** ** Shared vocabulary ([chess.h], [move.h]) *)

Inductive Side := WHITE | BLACK.

#[global] Instance Side_eq_dec : EqDecision Side.
Proof. solve_decision. Defined.

(** [~Me] *)
Definition flipSide (s : Side) : Side :=
  match s with WHITE => BLACK | BLACK => WHITE end.

(** [Move] is an integer encoding of from-square, to-square and kind. *)
Abbreviation Move := Z (only parsing).
Abbreviation TimeMs := Z (only parsing).

(** ** The interfaces of the headers that are not part of the development *)

Abbreviation Square := Z (only parsing).     (* 0 .. 63 *)
Abbreviation Bitboard := Z (only parsing).   (* a set of squares, one bit per square *)

Inductive PieceType :=
  NO_PIECE_TYPE | PAWN | KNIGHT | BISHOP | ROOK | QUEEN | KING.

#[global] Instance PieceType_eq_dec : EqDecision PieceType.
Proof. solve_decision. Defined.

Inductive Piece := NO_PIECE | mkPiece (c : Side) (pt : PieceType).

(** [pieceType(pc)] *)
Definition pieceType (pc : Piece) : PieceType :=
  match pc with NO_PIECE => NO_PIECE_TYPE | mkPiece _ pt => pt end.

Inductive MoveType := NORMAL | CASTLING | EN_PASSANT | PROMOTION.

Inductive MoveGenType := QUIET_MOVES | TACTICAL_MOVES | ALL_MOVES.

(** What [chess.h], [move.h] and [evaluate.h] provide to the move picker.
    Nothing here is fixed by the three files of the development, so every
    item is a field. [MoveOp] is the type of the pointers to member
    [void (Position::* )(Move)] that travel with a generated move. *)
Class ChessH := {
  MOVE_NONE     : Move;
  moveFrom      : Move -> Square;
  moveTo        : Move -> Square;
  moveType      : Move -> MoveType;
  NB_PIECE_TYPE : Z;
  pieceTypeInt  : PieceType -> Z;                (* (int)pt *)
  PieceValueMG  : Piece -> Z;                    (* PieceValue<MG>(pc) *)
  bb            : Square -> Bitboard;            (* bb(sq) *)
  pawnAttacks   : Side -> Bitboard -> Bitboard;  (* pawnAttacks<Me>(b) *)
  attacks       : PieceType -> Square -> Bitboard -> Bitboard;
                                                 (* attacks<Pt>(sq, occupied) *)
  MoveOp        : Type;
  doMoveMe      : Side -> MoveOp;                (* &Position::doMove<Me> *)
  undoMoveMe    : Side -> MoveOp                 (* &Position::undoMove<Me> *)
}.

(** [int16_t] conversion of an [int]. *)
Definition int16 (z : Z) : Z := (z + 32768) mod 65536 - 32768.

(** [size_t] arithmetic. *)
Definition wrap64 (z : Z) : Z := z mod 2 ^ 64.

(** A bitboard used as a condition. *)
Definition nonzero (b : Bitboard) : bool := negb (b =? 0).

(** ** [engine.h]: SearchLimits and SearchData *)

Module Engine.

Section SearchState.

Context `{CH : ChessH}.

Record SearchLimits := {
  timeLeft   : Side -> TimeMs;     (* TimeMs timeLeft[NB_SIDE]  *)
  increment  : Side -> TimeMs;     (* TimeMs increment[NB_SIDE] *)
  movesToGo  : Z;
  maxDepth   : Z;
  maxNodes   : Z;                  (* size_t *)
  maxTime    : TimeMs;
  searchMoves : list Move
}.

(** Value-initialised limits: every field zero, no root move restriction. *)
Definition noLimits : SearchLimits :=
  {| timeLeft := fun _ => 0; increment := fun _ => 0; movesToGo := 0;
     maxDepth := 0; maxNodes := 0; maxTime := 0; searchMoves := [] |}.

(** The fields of [SearchData] that the budget and killer code touches.
    [killerMoves] is [Move killerMoves[MAX_PLY][2]]: one pair per ply, the
    length of the list being [MAX_PLY]. *)
Record SearchData := {
  limits        : SearchLimits;
  nbNodes       : Z;               (* size_t *)
  startTime     : TimeMs;
  lastCheck     : TimeMs;
  allocatedTime : TimeMs;
  killerMoves   : list (Move * Move)
}.

(** [!!(limits.timeLeft[WHITE] | limits.timeLeft[WHITE])] *)
Definition useTournamentTime (sd : SearchData) : bool :=
  negb (Z.lor (timeLeft (limits sd) WHITE) (timeLeft (limits sd) WHITE) =? 0).

(** [limits.maxTime > 0] *)
Definition useFixedTime (sd : SearchData) : bool :=
  0 <? maxTime (limits sd).

(** [limits.maxNodes > 0] *)
Definition useNodeCountLimit (sd : SearchData) : bool :=
  0 <? maxNodes (limits sd).

(** [useTimeLimit() { return useTournamentTime() || useTimeLimit(); }]
    The body calls itself. Every unfolding of the call consumes one unit of
    [fuel]; [None] is "no value yet". [||] evaluates its right operand only
    when the left one is false. *)
Fixpoint useTimeLimit (fuel : nat) (sd : SearchData) : option bool :=
  match fuel with
  | O => None
  | S fuel' =>
      if useTournamentTime sd then Some true
      else useTimeLimit fuel' sd
  end.

(** [shouldStop()], with the clock reading [now()] as an explicit input. *)
Definition shouldStop (now : TimeMs) (sd : SearchData) : bool :=
  if negb (nbNodes sd mod 1024 =? 0) then false
  else
    let elapsed := now - startTime sd in
    if useTournamentTime sd && (allocatedTime sd <=? elapsed) then true
    else if useFixedTime sd && (maxTime (limits sd) <? elapsed) then true
    else if useNodeCountLimit sd && (maxNodes (limits sd) <=? nbNodes sd) then true
    else false.

Definition setKillers (sd : SearchData) (k : list (Move * Move)) : SearchData :=
  {| limits := limits sd; nbNodes := nbNodes sd; startTime := startTime sd;
     lastCheck := lastCheck sd; allocatedTime := allocatedTime sd;
     killerMoves := k |}.

(** [clearKillers(ply)] *)
Definition clearKillers (ply : Z) (sd : SearchData) : option SearchData :=
  if ply <? 0 then None
  else match killerMoves sd !! Z.to_nat ply with
       | None => None
       | Some _ =>
           Some (setKillers sd
                   (<[Z.to_nat ply := (MOVE_NONE, MOVE_NONE)]> (killerMoves sd)))
       end.

(** [updateKillers(move, ply)] *)
Definition updateKillers (move : Move) (ply : Z) (sd : SearchData)
  : option SearchData :=
  if ply <? 0 then None
  else match killerMoves sd !! Z.to_nat ply with
       | None => None
       | Some (k0, k1) =>
           if negb (k0 =? move) then
             (* killerMoves[ply][1] = killerMoves[ply][0];
                killerMoves[ply][0] = move; *)
             Some (setKillers sd (<[Z.to_nat ply := (move, k0)]> (killerMoves sd)))
           else Some sd
       end.

(** Invariant 2 of the data model, for one ply. *)
Definition killersDistinct (row : Move * Move) : Prop :=
  row.1 <> MOVE_NONE -> row.2 <> MOVE_NONE -> row.1 <> row.2.

End SearchState.

End Engine.

(** ** [movepicker.h] *)

Module MovePicker.

Section Picker.

Context `{CH : ChessH}.

(** One call of the handler that [enumerateLegalMoves] drives:
    [(Move m, auto doMove, auto undoMove)]. *)
Definition GenMove : Type := Move * MoveOp * MoveOp.

Definition genMove (g : GenMove) : Move := g.1.1.

(** The read-only view of [const Position &pos] that the picker consults.
    The position does not change while the picker runs: every handler
    undoes the move it made before it returns. [legalMoves Me T] lists, in
    call order, the handler calls of [enumerateLegalMoves<Me, T>(pos, h)]. *)
Record Position := {
  inCheck            : bool;
  isLegal            : Side -> Move -> bool;       (* isLegal<Me>(m) *)
  isTactical         : Move -> bool;
  isCapture          : Move -> bool;
  see                : Move -> Z -> bool;
  getPieceAt         : Square -> Piece;
  getPiecesBB        : Bitboard;                   (* getPiecesBB() *)
  getPiecesBB1       : Side -> PieceType -> Bitboard;
  getPiecesBB2       : Side -> PieceType -> PieceType -> Bitboard;
  threatenedByPawns  : Bitboard;
  threatenedByMinors : Bitboard;
  threatenedByRooks  : Bitboard;
  legalMoves         : Side -> MoveGenType -> list GenMove
}.

Record ScoredMove := {
  doMove   : MoveOp;
  undoMove : MoveOp;
  move     : Move;
  score    : Z                                     (* int16_t *)
}.

Inductive MovePickerType := MAIN | QUIESCENCE.

(** [std::sort(moves.begin(), moves.end(), a.score > b.score)]: the standard
    fixes the result up to the order of equal scores, so the sort is any
    function that permutes its input into non-increasing scores. *)
Class StdSort := {
  std_sort        : list ScoredMove -> list ScoredMove;
  std_sort_perm   : forall l, std_sort l ≡ₚ l;
  std_sort_sorted : forall l,
      StronglySorted (fun a b => score b <= score a) (std_sort l)
}.

Context {SS : StdSort}.

(** *** Handlers and early exit

    A handler acts on the caller's state [S] and answers continue ([true])
    or stop ([false]). Code that runs handlers lives in [Enum S]: [None] is
    the [return false] that leaves [enumerate] at once. *)
Definition Handler (S : Type) : Type :=
  Move -> MoveOp -> MoveOp -> S -> bool * S.

Definition Enum (S X : Type) : Type := S -> option X * S.

Definition ret {S X} (x : X) : Enum S X := fun s => (Some x, s).

Definition bindE {S X Y} (m : Enum S X) (k : X -> Enum S Y) : Enum S Y :=
  fun s => match m s with
           | (Some x, s') => k x s'
           | (None, s') => (None, s')
           end.

(** [if (!handler(m, doMove, undoMove)) return false;] *)
Definition yield {S} (h : Handler S) (m : Move) (d u : MoveOp) : Enum S unit :=
  fun s => let '(continue, s') := h m d u s in
           (if continue then Some tt else None, s').

(** [enumerate] returns [true] when it reaches its end. *)
Definition finish {S X} (m : Enum S X) : S -> bool * S :=
  fun s => match m s with
           | (Some _, s') => (true, s')
           | (None, s') => (false, s')
           end.

(** *** Scoring *)

Section Scores.

Variable Me : Side.
Variable pos : Position.

(** [scoreTactical(m)]: MVV-LVA. *)
Definition scoreTactical (m : Move) : Z :=
  int16 (PieceValueMG (getPieceAt pos (moveTo m))
         - pieceTypeInt (pieceType (getPieceAt pos (moveFrom m)))).

(** [scoreEvasion(m)] *)
Definition scoreEvasion (m : Move) : Z :=
  if isCapture pos m then scoreTactical m else int16 0.

(** [Bitboard & Square] and [Square & Bitboard] test one square. *)
Definition onSquare (b : Bitboard) (sq : Square) : bool :=
  nonzero (Z.land b (bb sq)).

(** [attacks<Pt>(to, pos.getPiecesBB()) & pos.getPiecesBB(~Me, KING)] *)
Definition hitsKing (pt : PieceType) (to : Square) : bool :=
  nonzero (Z.land (attacks pt to (getPiecesBB pos))
                  (getPiecesBB1 pos (flipSide Me) KING)).

(** The arms of [switch (pt)] in [scoreQuiet], from the last one up. An arm
    without [break] runs on into the arm written below it. *)
Definition caseQueen (to : Square) (score : Z) : Z :=
  if hitsKing QUEEN to then score + 10 else score.

Definition caseRook (to : Square) (score : Z) : Z :=
  caseQueen to (if hitsKing ROOK to then score + 10 else score).

Definition caseBishop (to : Square) (score : Z) : Z :=
  caseRook to (if hitsKing BISHOP to then score + 10 else score).

Definition caseKnight (to : Square) (score : Z) : Z :=
  if hitsKing KNIGHT to then score + 10 else score.

Definition casePawn (to : Square) (score : Z) : Z :=
  if nonzero (Z.land (pawnAttacks Me (bb to))
                     (getPiecesBB1 pos (flipSide Me) KING))
  then score + 10 else score.

(** The conditional chain added when [threatenedPieces & from]. *)
Definition escapeBonus (pt : PieceType) (to : Square) : Z :=
  if bool_decide (pt = QUEEN) && negb (onSquare (threatenedByRooks pos) to)
  then 1000
  else if bool_decide (pt = ROOK) && negb (onSquare (threatenedByMinors pos) to)
  then 500
  else if (bool_decide (pt = BISHOP) || bool_decide (pt = KNIGHT))
          && negb (onSquare (threatenedByPawns pos) to)
  then 300
  else 0.

(** [scoreQuiet(m)]; [threatenedPieces] is the member that [enumerate] sets
    before it scores the quiet moves. *)
Definition scoreQuiet (threatenedPieces : Bitboard) (m : Move) : Z :=
  let from := moveFrom m in
  let to := moveTo m in
  let pt := pieceType (getPieceAt pos from) in
  let score := NB_PIECE_TYPE - pieceTypeInt pt in
  match moveType m with
  | PROMOTION => int16 (-100)
  | _ =>
      let score :=
        if onSquare threatenedPieces from then score + escapeBonus pt to
        else score in
      let score :=
        match pt with
        | PAWN => casePawn to score
        | KNIGHT => caseKnight to score
        | BISHOP => caseBishop to score
        | ROOK => caseRook to score
        | QUEEN => caseQueen to score
        | _ => score
        end in
      int16 score
  end.

End Scores.

(** *** The loops of [enumerate] *)

(** [enumerateLegalMoves<Me, T>(pos, cb)]: the callback runs on each
    generated move until it answers [false]. *)
Fixpoint enumerateLegalMoves {A} (gen : list GenMove)
    (cb : Move -> MoveOp -> MoveOp -> A -> bool * A) (a : A) : bool * A :=
  match gen with
  | [] => (true, a)
  | (m, d, u) :: rest =>
      let '(continue, a') := cb m d u a in
      if continue then enumerateLegalMoves rest cb a' else (false, a')
  end.

(** [moves.push_back(smove)]. [ScoredMoveList] has room for [MAX_MOVE]
    entries; a position never has that many legal moves, so the capacity
    plays no part here. *)
Definition push_back (moves : list ScoredMove) (sm : ScoredMove) :=
  moves ++ [sm].

Section Enumerate.

Variable Ty : MovePickerType.
Variable Me : Side.
Variable pos : Position.
Variables ttMove killer1 killer2 counter : Move.

(** [refutations{killer1_, killer2_, counter_}] *)
Definition refutations (i : nat) : Move :=
  match i with O => killer1 | 1%nat => killer2 | _ => counter end.

(** The callback of the evasions stage. *)
Definition collectEvasion (m : Move) (d u : MoveOp) (moves : list ScoredMove)
  : bool * list ScoredMove :=
  if m =? ttMove then (true, moves)
  else (true, push_back moves
                {| doMove := d; undoMove := u; move := m;
                   score := scoreEvasion pos m |}).

(** The callback of the tacticals stage. *)
Definition collectTactical (m : Move) (d u : MoveOp) (moves : list ScoredMove)
  : bool * list ScoredMove :=
  if m =? ttMove then (true, moves)
  else if match Ty with QUIESCENCE => negb (see pos m 0) | MAIN => false end
  then (true, moves)
  else (true, push_back moves
                {| doMove := d; undoMove := u; move := m;
                   score := scoreTactical pos m |}).

(** The callback of the quiets stage. *)
Definition collectQuiet (threatenedPieces : Bitboard)
    (m : Move) (d u : MoveOp) (moves : list ScoredMove)
  : bool * list ScoredMove :=
  if m =? ttMove then (true, moves)
  else if (refutations 0 =? m) || (refutations 1 =? m) || (refutations 2 =? m)
  then (true, moves)
  else (true, push_back moves
                {| doMove := d; undoMove := u; move := m;
                   score := scoreQuiet Me pos threatenedPieces m |}).

Section WithHandler.

Context {S : Type}.
Variable handler : Handler S.

(** [for (auto m : moves) { if (m.move == ttMove) continue;
                            if (!handler(...)) return false; }] *)
Fixpoint evasionsLoop (moves : list ScoredMove) : Enum S unit :=
  match moves with
  | [] => ret tt
  | m :: rest =>
      if move m =? ttMove then evasionsLoop rest
      else bindE (yield handler (move m) (doMove m) (undoMove m))
                 (fun _ => evasionsLoop rest)
  end.

(** The two loops that split a sorted range while they yield from it:
    [for (current = ...; current != moves.end(); current++) {
       if (defer( *current)) { *endBad++ = *current; continue; }
       if (!handler(...)) return false; }]
    [n] counts the iterations left, [current] and [endBad] are offsets from
    [moves.begin()]. The loop ends with the array as the writes left it and
    with the final [endBad]. *)
Fixpoint splitLoop (defer : ScoredMove -> bool) (n : nat)
    (current endBad : nat) (moves : list ScoredMove)
  : Enum S (list ScoredMove * nat) :=
  match n with
  | O => ret (moves, endBad)
  | Datatypes.S n' =>
      match moves !! current with
      | None => ret (moves, endBad)
      | Some cur =>
          if defer cur
          then splitLoop defer n' (Datatypes.S current) (Datatypes.S endBad)
                         (<[endBad := cur]> moves)
          else bindE (yield handler (move cur) (doMove cur) (undoMove cur))
                     (fun _ => splitLoop defer n' (Datatypes.S current) endBad moves)
      end
  end.

(** [for (current = first; current != last; current++)
       if (!handler(...)) return false;] over offsets [first .. last). *)
Fixpoint rangeLoop (n : nat) (current : nat) (moves : list ScoredMove)
  : Enum S unit :=
  match n with
  | O => ret tt
  | Datatypes.S n' =>
      match moves !! current with
      | None => ret tt
      | Some cur =>
          bindE (yield handler (move cur) (doMove cur) (undoMove cur))
                (fun _ => rangeLoop n' (Datatypes.S current) moves)
      end
  end.

(** A killer or counter slot. *)
Definition yieldIf (cond : bool) (m : Move) : Enum S unit :=
  if cond then yield handler m (doMoveMe Me) (undoMoveMe Me) else ret tt.

(** The test of the good-tacticals loop: compiled in for [MAIN] only. *)
Definition deferTactical (sm : ScoredMove) : bool :=
  match Ty with
  | MAIN => negb (see pos (move sm) (-50))
  | QUIESCENCE => false
  end.

(** The test of the good-quiets loop. *)
Definition deferQuiet (sm : ScoredMove) : bool := score sm <? 0.

(** [threatenedPieces = (getPiecesBB(Me, KNIGHT, BISHOP) & threatenedByPawns())
                       | (getPiecesBB(Me, ROOK) & threatenedByMinors())
                       | (getPiecesBB(Me, QUEEN) & threatenedByRooks())] *)
Definition threatened : Bitboard :=
  Z.lor (Z.lor (Z.land (getPiecesBB2 pos Me KNIGHT BISHOP) (threatenedByPawns pos))
               (Z.land (getPiecesBB1 pos Me ROOK) (threatenedByMinors pos)))
        (Z.land (getPiecesBB1 pos Me QUEEN) (threatenedByRooks pos)).

(** The array at the start of the good-quiets stage: the deferred
    tacticals are kept ([resize]), the quiet moves are pushed behind them,
    and [std::sort] runs from [moves.begin()] to [moves.end()]. *)
Definition quietsArray (moves : list ScoredMove) (endBadTacticals : nat)
  : list ScoredMove :=
  let moves := take endBadTacticals moves in     (* moves.resize(...) *)
  let threatenedPieces := threatened in
  let moves :=
    (enumerateLegalMoves (legalMoves pos Me QUIET_MOVES)
                         (collectQuiet threatenedPieces) moves).2 in
  std_sort moves.

(** Good quiets: [current = beginQuiets = endBadQuiets = endBadTacticals]. *)
Definition goodQuietsStage (moves : list ScoredMove) (endBadTacticals : nat)
  : Enum S (list ScoredMove * nat) :=
  splitLoop deferQuiet (length moves - endBadTacticals)
            endBadTacticals endBadTacticals moves.

(** Bad tacticals: [moves.begin() .. endBadTacticals). *)
Definition badTacticalsStage (moves : list ScoredMove) (endBadTacticals : nat)
  : Enum S unit :=
  rangeLoop endBadTacticals 0 moves.

(** Bad quiets: [beginQuiets .. endBadQuiets). *)
Definition badQuietsStage (moves : list ScoredMove)
    (beginQuiets endBadQuiets : nat) : Enum S unit :=
  rangeLoop (endBadQuiets - beginQuiets) beginQuiets moves.

(** The stages after the good tacticals ([MAIN] only). *)
Definition quietStages (moves : list ScoredMove) (endBadTacticals : nat)
  : Enum S unit :=
  (* Killer 1 *)
  bindE (yieldIf (negb (refutations 0 =? ttMove)
                  && negb (isTactical pos (refutations 0))
                  && isLegal pos Me (refutations 0)) (refutations 0)) (fun _ =>
  (* Killer 2 *)
  bindE (yieldIf (negb (refutations 1 =? ttMove)
                  && negb (isTactical pos (refutations 1))
                  && isLegal pos Me (refutations 1)) (refutations 1)) (fun _ =>
  (* Counter *)
  bindE (yieldIf (negb (refutations 2 =? ttMove)
                  && negb (isTactical pos (refutations 2))
                  && negb (refutations 2 =? refutations 0)
                  && negb (refutations 2 =? refutations 1)
                  && isLegal pos Me (refutations 2)) (refutations 2)) (fun _ =>
  (* Quiets *)
  let moves := quietsArray moves endBadTacticals in
  let beginQuiets := endBadTacticals in
  bindE (goodQuietsStage moves endBadTacticals) (fun '(moves, endBadQuiets) =>
  bindE (badTacticalsStage moves endBadTacticals) (fun _ =>
  badQuietsStage moves beginQuiets endBadQuiets))))).

(** [MovePicker<Type, Me>::enumerate(handler)] *)
Definition enumerate : S -> bool * S :=
  finish
    ((* TTMove *)
     bindE (if isLegal pos Me ttMove
            then yield handler ttMove (doMoveMe Me) (undoMoveMe Me)
            else ret tt) (fun _ =>
     if inCheck pos then
       (* Evasions *)
       let moves :=
         (enumerateLegalMoves (legalMoves pos Me ALL_MOVES) collectEvasion []).2 in
       let moves := std_sort moves in
       evasionsLoop moves
     else
       (* Tacticals *)
       let moves :=
         (enumerateLegalMoves (legalMoves pos Me TACTICAL_MOVES)
                              collectTactical []).2 in
       let moves := std_sort moves in
       (* Good tacticals: current = endBadTacticals = moves.begin() *)
       bindE (splitLoop deferTactical (length moves) 0 0 moves)
             (fun '(moves, endBadTacticals) =>
       match Ty with
       | QUIESCENCE => ret tt                    (* Stop here for Quiescence *)
       | MAIN => quietStages moves endBadTacticals
       end))).

End WithHandler.

(** *** Observing the handler calls *)

(** A handler instrumented to log the moves it is called with. *)
Definition logged {S} (h : Handler S) : Handler (S * list Move) :=
  fun m d u sl =>
    let '(continue, s') := h m d u sl.1 in
    (continue, (s', sl.2 ++ [m])).

(** The handler that never stops and only records. *)
Definition recorder : Handler (list Move) :=
  fun m _ _ log => (true, log ++ [m]).

(** The moves a full enumeration yields, in order. *)
Definition yielded : list Move := (enumerate recorder []).2.

End Enumerate.

End Picker.

End MovePicker.

(** ** [perft.cpp] *)

Module Perft.

Section Perft.

(** The mutable [Position &pos]: its states are the values of [P]. The
    pointers to member handed to the callback are functions on [P]. *)
Variable P : Type.

Definition MoveFn : Type := Move -> P -> P.

(** [getSideToMove()] and the calls of [enumerateLegalMoves<Me>(pos, cb)]
    for a position, in call order. The generator works from the position it
    is started on; each callback of [perft] hands the position back as it
    received it before the generator goes on. *)
Variable getSideToMove : P -> Side.
Variable legalMoves : Side -> P -> list (Move * MoveFn * MoveFn).

(** What a run does besides returning: each [doMove], [undoMove] and each
    line written to [cout]. *)
Inductive Event :=
| EvDo (m : Move)
| EvUndo (m : Move)
| EvPrint (m : Move) (n : Z).

(** The state of the callback of the main loop: [total], the position, and
    the events so far. *)
Definition Acc : Type := Z * P * list Event.

(** Runs [body] over the generated moves; [None] when a nested call has no
    value. *)
Fixpoint forEachMove (gen : list (Move * MoveFn * MoveFn))
    (body : Move -> MoveFn -> MoveFn -> Acc -> option Acc) (a : Acc)
  : option Acc :=
  match gen with
  | [] => Some a
  | (m, d, u) :: rest =>
      match body m d u a with
      | Some a' => forEachMove rest body a'
      | None => None
      end
  end.

(** [perft<Div, Me>(pos, depth)]. [fuel] bounds the nesting of calls; the
    result is the returned total, the position and the events. *)
Fixpoint perft (fuel : nat) (Div : bool) (Me : Side) (depth : Z) (pos : P)
  : option Acc :=
  if negb Div && (depth <=? 1) then
    forEachMove (legalMoves Me pos)
      (fun m doMH undoMH '(total, pos, ev) => Some (wrap64 (total + 1), pos, ev))
      (0, pos, [])
  else
    match fuel with
    | O => None
    | S fuel' =>
        forEachMove (legalMoves Me pos)
          (fun move doMove undoMove '(total, pos, ev) =>
             match
               (if Div && (depth =? 1) then Some (1, pos, ev)
                else
                  let pos := doMove move pos in
                  let ev := ev ++ [EvDo move] in
                  match
                    (if depth =? 1 then Some (1, pos, ev)
                     else match perft fuel' false (flipSide Me) (depth - 1) pos with
                          | Some (n, pos, ev') => Some (n, pos, ev ++ ev')
                          | None => None
                          end)
                  with
                  | Some (n, pos, ev) =>
                      Some (n, undoMove move pos, ev ++ [EvUndo move])
                  | None => None
                  end)
             with
             | Some (n, pos, ev) =>
                 let total := wrap64 (total + n) in
                 let ev := if Div && (0 <? n) then ev ++ [EvPrint move n] else ev in
                 Some (total, pos, ev)
             | None => None
             end)
          (0, pos, [])
    end.

(** Calls nest at most [depth] deep. *)
Definition perftFuel (depth : Z) : nat := S (Z.to_nat depth).

(** [perft<Div>(pos, depth)] *)
Definition perftSide (Div : bool) (depth : Z) (pos : P) : option Acc :=
  match getSideToMove pos with
  | WHITE => perft (perftFuel depth) Div WHITE depth pos
  | BLACK => perft (perftFuel depth) Div BLACK depth pos
  end.

End Perft.

End Perft.

(** ** [engine.h]: the counter-move table and the tables of a new search *)

Module EngineTables.

Import Engine.

Section Tables.

Context `{CH : ChessH}.

(** The integer value of a [Piece]: its row in [counterMoves]. *)
Variable pieceIndex : Piece -> nat.

(** What [updateCounter] and [getCounter] read of [position]. *)
Record PositionView := {
  previousMove : Move;
  getPieceAt   : Square -> Piece
}.

(** [updateCounter(move)] on [Move counterMoves[NB_PIECE][NB_SQUARE]], one
    row per piece. *)
Definition updateCounter (move : Move) (position : PositionView)
    (counterMoves : list (list Move)) : option (list (list Move)) :=
  let prevMove := previousMove position in
  if negb (prevMove =? MOVE_NONE) then
    let pc := pieceIndex (getPieceAt position (moveTo prevMove)) in
    let to := moveTo prevMove in
    if to <? 0 then None
    else match counterMoves !! pc with
         | None => None
         | Some row =>
             match row !! Z.to_nat to with
             | None => None
             | Some _ =>
                 Some (<[pc := <[Z.to_nat to := move]> row]> counterMoves)
             end
         end
  else Some counterMoves.

(** [getCounter()] *)
Definition getCounter (position : PositionView)
    (counterMoves : list (list Move)) : option Move :=
  let prevMove := previousMove position in
  if prevMove =? MOVE_NONE then Some MOVE_NONE
  else
    let pc := pieceIndex (getPieceAt position (moveTo prevMove)) in
    let to := moveTo prevMove in
    if to <? 0 then None
    else match counterMoves !! pc with
         | None => None
         | Some row => row !! Z.to_nat to
         end.

(** [killerMoves{MOVE_NONE}] in the constructor: the first element of the
    array is [MOVE_NONE], every other element is value-initialised, that
    is, the move of integer value 0. *)
Definition initialKillers (MAX_PLY : nat) : list (Move * Move) :=
  match MAX_PLY with
  | O => []
  | S n => (MOVE_NONE, 0) :: replicate n (0, 0)
  end.

(** [counterMoves{MOVE_NONE}], initialised the same way. *)
Definition initialCounters (NB_PIECE NB_SQUARE : nat) : list (list Move) :=
  match NB_PIECE with
  | O => []
  | S n =>
      match NB_SQUARE with
      | O => []
      | S k => MOVE_NONE :: replicate k 0
      end :: replicate n (replicate NB_SQUARE 0)
  end.

(** [getElapsed()], with the clock reading as an input. *)
Definition getElapsed (now : TimeMs) (sd : SearchData) : TimeMs :=
  now - startTime sd.

End Tables.

End EngineTables.

(** ** A reference instance of the interfaces

    Standard chess geometry on a 0..63 board ([a1 = 0], [h1 = 7],
    [a8 = 56]), used to run the embedded code on concrete positions. The
    piece values are the customary 100/300/300/500/900. *)

Module Ref.

Definition sq (file rank : Z) : Square := file + 8 * rank.

Definition onBoard (file rank : Z) : bool :=
  (0 <=? file) && (file <? 8) && (0 <=? rank) && (rank <? 8).

Definition bit (s : Square) : Bitboard := Z.shiftl 1 s.

Definition step (file rank df dr : Z) : Bitboard :=
  if onBoard (file + df) (rank + dr) then bit (sq (file + df) (rank + dr)) else 0.

(** The squares seen from [(file, rank)] along [(df, dr)], up to and
    including the first occupied one. *)
Fixpoint ray (n : nat) (file rank df dr : Z) (occ : Bitboard) : Bitboard :=
  match n with
  | O => 0
  | S n' =>
      let b := step file rank df dr in
      if (b =? 0) || nonzero (Z.land occ b) then b
      else Z.lor b (ray n' (file + df) (rank + dr) df dr occ)
  end.

Definition orAll (l : list Bitboard) : Bitboard := foldr Z.lor 0 l.

Definition bishopAttacks (s : Square) (occ : Bitboard) : Bitboard :=
  orAll (map (fun d : Z * Z => ray 7 (s mod 8) (s / 8) d.1 d.2 occ)
             [(1, 1); (1, -1); (-1, 1); (-1, -1)]).

Definition rookAttacks (s : Square) (occ : Bitboard) : Bitboard :=
  orAll (map (fun d : Z * Z => ray 7 (s mod 8) (s / 8) d.1 d.2 occ)
             [(1, 0); (-1, 0); (0, 1); (0, -1)]).

Definition knightAttacks (s : Square) : Bitboard :=
  orAll (map (fun d : Z * Z => step (s mod 8) (s / 8) d.1 d.2)
             [(1, 2); (2, 1); (2, -1); (1, -2); (-1, -2); (-2, -1); (-2, 1); (-1, 2)]).

Definition kingAttacks (s : Square) : Bitboard :=
  orAll (map (fun d : Z * Z => step (s mod 8) (s / 8) d.1 d.2)
             [(1, 0); (1, 1); (0, 1); (-1, 1); (-1, 0); (-1, -1); (0, -1); (1, -1)]).

Definition squares : list Square := map Z.of_nat (seq 0 64).

(** The squares attacked by the pawns of [c] standing on [b]. *)
Definition refPawnAttacks (c : Side) (b : Bitboard) : Bitboard :=
  let dr := match c with WHITE => 1 | BLACK => -1 end in
  orAll (map (fun s => if nonzero (Z.land b (bit s))
                       then Z.lor (step (s mod 8) (s / 8) (-1) dr)
                                  (step (s mod 8) (s / 8) 1 dr)
                       else 0) squares).

Definition refAttacks (pt : PieceType) (s : Square) (occ : Bitboard) : Bitboard :=
  match pt with
  | KNIGHT => knightAttacks s
  | BISHOP => bishopAttacks s occ
  | ROOK => rookAttacks s occ
  | QUEEN => Z.lor (bishopAttacks s occ) (rookAttacks s occ)
  | KING => kingAttacks s
  | _ => 0
  end.

(** Moves as [from + 64 * to + 4096 * kind]. *)
Definition mkMove (from to : Square) : Move := from + 64 * to.

Definition refMoveType (m : Move) : MoveType :=
  match m / 4096 with
  | 0 => NORMAL
  | 1 => PROMOTION
  | 2 => EN_PASSANT
  | _ => CASTLING
  end.

Inductive RefOp := OpDo (c : Side) | OpUndo (c : Side).

#[global] Instance refChess : ChessH := {|
  MOVE_NONE := 0;
  moveFrom := fun m => m mod 64;
  moveTo := fun m => (m / 64) mod 64;
  moveType := refMoveType;
  NB_PIECE_TYPE := 7;
  pieceTypeInt := fun pt =>
    match pt with
    | NO_PIECE_TYPE => 0 | PAWN => 1 | KNIGHT => 2 | BISHOP => 3
    | ROOK => 4 | QUEEN => 5 | KING => 6
    end;
  PieceValueMG := fun pc =>
    match pieceType pc with
    | PAWN => 100 | KNIGHT => 300 | BISHOP => 300
    | ROOK => 500 | QUEEN => 900 | _ => 0
    end;
  bb := bit;
  pawnAttacks := refPawnAttacks;
  attacks := refAttacks;
  MoveOp := RefOp;
  doMoveMe := OpDo;
  undoMoveMe := OpUndo
|}.

(** A board is a list of occupied squares. *)
Definition Board := list (Square * Piece).

Definition pieceAt (b : Board) (s : Square) : Piece :=
  match find (fun e : Square * Piece => e.1 =? s) b with
  | Some e => e.2
  | None => NO_PIECE
  end.

Definition occupied (b : Board) (s : Square) : bool :=
  match pieceAt b s with NO_PIECE => false | _ => true end.

Definition piecesBB (b : Board) (keep : Piece -> bool) : Bitboard :=
  orAll (map (fun e : Square * Piece => if keep e.2 then bit e.1 else 0) b).

Definition isPiece (c : Side) (pt : PieceType) (pc : Piece) : bool :=
  match pc with
  | mkPiece c' pt' => bool_decide (c = c') && bool_decide (pt = pt')
  | NO_PIECE => false
  end.

(** The squares attacked by the pieces of [c] of type [pt]. *)
Definition attackedBy (b : Board) (c : Side) (pt : PieceType) : Bitboard :=
  orAll (map (fun e : Square * Piece =>
                if isPiece c pt e.2
                then match pt with
                     | PAWN => refPawnAttacks c (bit e.1)
                     | _ => refAttacks pt e.1 (piecesBB b (fun _ => true))
                     end
                else 0) b).

Definition gen (c : Side) (l : list Move) : list MovePicker.GenMove :=
  map (fun m => (m, OpDo c, OpUndo c)) l.

(** A position for the side [c] to move, from its board and from the
    lists of its legal quiet and tactical moves; [seeValue] is the static
    exchange value of a move. *)
Definition mkPosition (b : Board) (c : Side) (check : bool)
    (quiets tacticals : list Move) (seeValue : Move -> Z)
  : MovePicker.Position :=
  {| MovePicker.inCheck := check;
     MovePicker.isLegal := fun _ m =>
       existsb (Z.eqb m) (tacticals ++ quiets);
     MovePicker.isTactical := fun m =>
       occupied b ((m / 64) mod 64)
       || match refMoveType m with PROMOTION => true | _ => false end;
     MovePicker.isCapture := fun m => occupied b ((m / 64) mod 64);
     MovePicker.see := fun m threshold => threshold <=? seeValue m;
     MovePicker.getPieceAt := pieceAt b;
     MovePicker.getPiecesBB := piecesBB b (fun _ => true);
     MovePicker.getPiecesBB1 := fun c' pt => piecesBB b (isPiece c' pt);
     MovePicker.getPiecesBB2 := fun c' pt1 pt2 =>
       piecesBB b (fun pc => isPiece c' pt1 pc || isPiece c' pt2 pc);
     MovePicker.threatenedByPawns := attackedBy b (flipSide c) PAWN;
     MovePicker.threatenedByMinors :=
       Z.lor (attackedBy b (flipSide c) PAWN)
             (Z.lor (attackedBy b (flipSide c) KNIGHT)
                    (attackedBy b (flipSide c) BISHOP));
     MovePicker.threatenedByRooks := attackedBy b (flipSide c) ROOK;
     MovePicker.legalMoves := fun _ T =>
       match T with
       | QUIET_MOVES => gen c quiets
       | TACTICAL_MOVES => gen c tacticals
       | ALL_MOVES => gen c (tacticals ++ quiets)
       end |}.

End Ref.

(** * Vocabulary of the properties *)

(** ** The stages of the move picker as lists *)

Module Stages.

Import MovePicker.

Section Handlers.

Context `{CH : ChessH} {S : Type}.
Variable handler : Handler S.

(** The handler run over a list of moves, first to last, until it stops. *)
Fixpoint yieldAll (l : list ScoredMove) : Enum S unit :=
  match l with
  | [] => ret tt
  | m :: rest =>
      bindE (yield handler (move m) (doMove m) (undoMove m))
            (fun _ => yieldAll rest)
  end.

End Handlers.

Section Lists.

Context `{CH : ChessH} {SS : StdSort}.

Variable Ty : MovePickerType.
Variable Me : Side.
Variable pos : Position.
Variables ttMove killer1 killer2 counter : Move.

(** A generated move with its score. *)
Definition scored (sc : Move -> Z) (g : GenMove) : ScoredMove :=
  {| doMove := g.1.2; undoMove := g.2; move := genMove g;
     score := sc (genMove g) |}.

(** A move yielded with [doMove<Me>] and [undoMove<Me>]. *)
Definition own (m : Move) : ScoredMove :=
  {| doMove := doMoveMe Me; undoMove := undoMoveMe Me; move := m; score := 0 |}.

(** The moves that each stage's callback pushes. *)
Definition keepEvasion (m : Move) : bool := negb (m =? ttMove).

Definition keepTactical (m : Move) : bool :=
  negb (m =? ttMove)
  && match Ty with QUIESCENCE => see pos m 0 | MAIN => true end.

Definition keepQuiet (m : Move) : bool :=
  negb (m =? ttMove)
  && negb ((killer1 =? m) || (killer2 =? m) || (counter =? m)).

Definition keptOf (keep : Move -> bool) (T : MoveGenType) : list GenMove :=
  filter (fun g => keep (genMove g) = true) (legalMoves pos Me T).

(** The stages as lists of handler calls. *)
Definition ttStage : list ScoredMove :=
  if isLegal pos Me ttMove then [own ttMove] else [].

Definition evasions : list ScoredMove :=
  std_sort (scored (scoreEvasion pos) <$> keptOf keepEvasion ALL_MOVES).

Definition tacticals : list ScoredMove :=
  std_sort (scored (scoreTactical pos) <$> keptOf keepTactical TACTICAL_MOVES).

Definition goodTacticals : list ScoredMove :=
  filter (fun sm => deferTactical Ty pos sm = false) tacticals.

Definition badTacticals : list ScoredMove :=
  filter (fun sm => deferTactical Ty pos sm = true) tacticals.

Definition killer1Stage : list ScoredMove :=
  if negb (killer1 =? ttMove) && negb (isTactical pos killer1)
     && isLegal pos Me killer1
  then [own killer1] else [].

Definition killer2Stage : list ScoredMove :=
  if negb (killer2 =? ttMove) && negb (isTactical pos killer2)
     && isLegal pos Me killer2
  then [own killer2] else [].

Definition counterStage : list ScoredMove :=
  if negb (counter =? ttMove) && negb (isTactical pos counter)
     && negb (counter =? killer1) && negb (counter =? killer2)
     && isLegal pos Me counter
  then [own counter] else [].

Definition quietMoves : list ScoredMove :=
  scored (scoreQuiet Me pos (threatened Me pos)) <$> keptOf keepQuiet QUIET_MOVES.

(** The array that the last three stages read: one sort over the deferred
    tacticals and the quiet moves together. *)
Definition sortedTail : list ScoredMove := std_sort (badTacticals ++ quietMoves).

(** What the good-quiets loop yields: the elements past the first
    [length badTacticals] whose score is not negative. *)
Definition goodQuietsYield : list ScoredMove :=
  filter (fun sm => deferQuiet sm = false) (drop (length badTacticals) sortedTail).

(** What the bad-tacticals loop yields: the first [length badTacticals]
    elements of the sorted array. *)
Definition badTacticalsYield : list ScoredMove :=
  take (length badTacticals) sortedTail.

(** What the bad-quiets loop yields. *)
Definition badQuietsYield : list ScoredMove :=
  filter (fun sm => deferQuiet sm = true) (drop (length badTacticals) sortedTail).

(** Every handler call of a full enumeration, in order. *)
Definition staged : list ScoredMove :=
  ttStage ++
  (if inCheck pos then filter (fun sm => move sm <> ttMove) evasions
   else goodTacticals ++
        match Ty with
        | QUIESCENCE => []
        | MAIN => killer1Stage ++ killer2Stage ++ counterStage
                  ++ goodQuietsYield ++ badTacticalsYield ++ badQuietsYield
        end).

(** The moves of a full enumeration, up to order. *)
Definition kept : list Move :=
  (move <$> ttStage) ++
  (if inCheck pos then genMove <$> keptOf keepEvasion ALL_MOVES
   else (genMove <$> keptOf keepTactical TACTICAL_MOVES) ++
        match Ty with
        | QUIESCENCE => []
        | MAIN => (move <$> killer1Stage) ++ (move <$> killer2Stage)
                  ++ (move <$> counterStage)
                  ++ (genMove <$> keptOf keepQuiet QUIET_MOVES)
        end).

End Lists.

(** The check bonus that [scoreQuiet] adds, arm by arm. *)
Definition checkBonus `{CH : ChessH} (Me : Side) (pos : Position)
    (pt : PieceType) (to : Square) : Z :=
  let hit p := if hitsKing Me pos p to then 10 else 0 in
  match pt with
  | PAWN => casePawn Me pos to 0
  | KNIGHT => hit KNIGHT
  | BISHOP => hit BISHOP + hit ROOK + hit QUEEN
  | ROOK => hit ROOK + hit QUEEN
  | QUEEN => hit QUEEN
  | _ => 0
  end.

End Stages.

(** ** Concrete inputs *)

Module Cases.

Import Engine Perft MovePicker Ref.

(** A search state with the given budget and killers. *)
Definition mkData (l : SearchLimits) (nodes start allocated : Z)
    (killers : list (Move * Move)) : SearchData :=
  {| limits := l; nbNodes := nodes; startTime := start; lastCheck := 0;
     allocatedTime := allocated; killerMoves := killers |}.

(** [go movetime 1000]: one second per move, nothing else. *)
Definition fixedTimeLimits : SearchLimits :=
  {| timeLeft := fun _ => 0; increment := fun _ => 0; movesToGo := 0;
     maxDepth := 0; maxNodes := 0; maxTime := 1000; searchMoves := [] |}.

(** [go wtime 60000 btime 60000]: both clocks are given. *)
Definition clockLimits : SearchLimits :=
  {| timeLeft := fun _ => 60000; increment := fun _ => 0; movesToGo := 0;
     maxDepth := 0; maxNodes := 0; maxTime := 0; searchMoves := [] |}.

(** [go btime 60000]: only Black's clock is given. *)
Definition blackClockLimits : SearchLimits :=
  {| timeLeft := fun c => match c with WHITE => 0 | BLACK => 60000 end;
     increment := fun _ => 0; movesToGo := 0;
     maxDepth := 0; maxNodes := 0; maxTime := 0; searchMoves := [] |}.

(** The total and the position of a perft result, without the events. *)
Definition outcome {P : Type} (r : option (Acc P)) : option (Z * P) :=
  match r with
  | Some (total, pos, _) => Some (total, pos)
  | None => None
  end.

(** A small game to run perft on: a position is the list of the moves made
    so far, the last one first; two moves, 1 and 2, are legal until three
    moves have been made. *)
Definition toyDo : MoveFn (list Move) := fun m h => m :: h.
Definition toyUndo : MoveFn (list Move) := fun _ h => tail h.

(** White moves first, the sides alternate. *)
Definition toySide (h : list Move) : Side :=
  if Nat.even (length h) then WHITE else BLACK.

Definition toyMoves (_ : Side) (h : list Move)
  : list (Move * MoveFn (list Move) * MoveFn (list Move)) :=
  if (length h <? 3)%nat then [(1, toyDo, toyUndo); (2, toyDo, toyUndo)] else [].

(** The order that the comparator [a.score > b.score] sorts into. *)
Definition byScore `{CH : ChessH} (a b : ScoredMove) : Prop := score b <= score a.

#[global] Instance byScore_dec `{CH : ChessH} a b : Decision (byScore a b).
Proof. unfold byScore. apply _. Defined.

#[global] Instance byScore_total `{CH : ChessH} : Total byScore.
Proof. intros a b. unfold byScore. lia. Qed.

#[global] Instance byScore_trans `{CH : ChessH} : Transitive byScore.
Proof. intros a b c. unfold byScore. lia. Qed.

(** A sort that meets the requirements of [std::sort]. *)
Definition mergeSort `{CH : ChessH} : StdSort := {|
  std_sort := merge_sort byScore;
  std_sort_perm := merge_sort_Permutation byScore;
  std_sort_sorted := StronglySorted_merge_sort byScore
|}.

Definition a1 : Square := sq 0 0.
Definition a4 : Square := sq 0 3.
Definition b2 : Square := sq 1 1.
Definition b3 : Square := sq 1 2.
Definition b5 : Square := sq 1 4.
Definition c2 : Square := sq 2 1.
Definition d3 : Square := sq 3 2.
Definition e1 : Square := sq 4 0.
Definition e8 : Square := sq 4 7.
Definition f1 : Square := sq 5 0.
Definition f2 : Square := sq 5 1.
Definition g1 : Square := sq 6 0.
Definition g2 : Square := sq 6 1.
Definition h1 : Square := sq 7 0.
Definition h2 : Square := sq 7 1.
Definition h3 : Square := sq 7 2.
Definition h8 : Square := sq 7 7.

(** [7k/8/8/8/8/3p4/1pp5/N6K w - - 0 1]: White's knight on a1 is attacked
    by the pawn on b2; the pawn on c2, which the knight can take, is
    defended by the pawn on d3. *)
Definition boardA : Board :=
  [ (h1, mkPiece WHITE KING); (a1, mkPiece WHITE KNIGHT);
    (h8, mkPiece BLACK KING); (b2, mkPiece BLACK PAWN);
    (c2, mkPiece BLACK PAWN); (d3, mkPiece BLACK PAWN) ].

Definition Nxc2 : Move := mkMove a1 c2.
Definition Nb3 : Move := mkMove a1 b3.
Definition Kg1 : Move := mkMove h1 g1.
Definition Kg2 : Move := mkMove h1 g2.
Definition Kh2 : Move := mkMove h1 h2.

(** White to move, not in check. The legal moves are the three king
    moves, the knight's move to b3 and its capture on c2, which loses the
    knight for a pawn (100 - 300). *)
Definition posA : Position :=
  mkPosition boardA WHITE false
    [Kg1; Kg2; Kh2; Nb3] [Nxc2]
    (fun m => if m =? Nxc2 then -200 else 0).

(** [7k/8/8/8/R7/8/8/4K3 w - - 0 1]: the long diagonal a1-h8 is empty. *)
Definition boardB : Board :=
  [ (e1, mkPiece WHITE KING); (a4, mkPiece WHITE ROOK); (h8, mkPiece BLACK KING) ].

Definition Ra1 : Move := mkMove a4 a1.

Definition posB : Position :=
  mkPosition boardB WHITE false
    (map (mkMove a4) [a1; sq 0 1; sq 0 2; sq 0 4; sq 0 5; sq 0 6; sq 0 7;
                      sq 1 3; sq 2 3; sq 3 3; sq 4 3; sq 5 3; sq 6 3; sq 7 3]
     ++ map (mkMove e1) [sq 3 0; sq 3 1; sq 4 1; sq 5 0; sq 5 1])
    [] (fun _ => 0).

(** [4k3/8/8/8/8/8/8/4KB2 w - - 0 1]: the bishop checks from b5. *)
Definition boardC : Board :=
  [ (e1, mkPiece WHITE KING); (f1, mkPiece WHITE BISHOP); (e8, mkPiece BLACK KING) ].

Definition Bb5 : Move := mkMove f1 b5.

Definition posC : Position :=
  mkPosition boardC WHITE false
    (map (mkMove f1) [sq 4 1; sq 3 2; sq 2 3; b5; sq 0 5; g2; h3]
     ++ map (mkMove e1) [sq 3 0; sq 3 1; sq 4 1; f2])
    [] (fun _ => 0).

(** A scored move of White, as the generator of [Ref] hands it out. *)
Definition sm (m : Move) (sc : Z) : ScoredMove :=
  {| doMove := OpDo WHITE; undoMove := OpUndo WHITE; move := m; score := sc |}.

End Cases.

(** ** Runs of killer-table operations *)

Module Runs.

Import Engine.

Section Runs.

Context `{CH : ChessH}.

(** The two operations of [SearchData] that write [killerMoves]. *)
Inductive KillerOp :=
| OpClear (ply : Z)
| OpUpdate (m : Move) (ply : Z).

Definition opPly (op : KillerOp) : Z :=
  match op with OpClear ply => ply | OpUpdate _ ply => ply end.

Definition applyOp (op : KillerOp) (sd : SearchData) : option SearchData :=
  match op with
  | OpClear ply => clearKillers ply sd
  | OpUpdate m ply => updateKillers m ply sd
  end.

(** The operations applied first to last; [None] as soon as one of them
    indexes out of range. *)
Fixpoint runOps (ops : list KillerOp) (sd : SearchData) : option SearchData :=
  match ops with
  | [] => Some sd
  | op :: rest =>
      match applyOp op sd with
      | Some sd' => runOps rest sd'
      | None => None
      end
  end.

End Runs.

End Runs.

(** ** Concrete tables *)

Module TableCases.

Import Engine EngineTables Cases.

(** A new search with three plies of killer moves. *)
Definition tablesData : SearchData :=
  mkData noLimits 0 0 0 (initialKillers (CH := Ref.refChess) 3).

(** The opponent's last move put a white knight on square 17. *)
Definition afterNb3 : PositionView :=
  {| previousMove := 1088;
     getPieceAt := fun s => if s =? 17 then mkPiece WHITE KNIGHT else NO_PIECE |}.

Definition pieceRow (pc : Piece) : nat :=
  match pc with
  | NO_PIECE => 0
  | mkPiece c pt =>
      (match c with WHITE => 0 | BLACK => 8 end
       + match pt with
         | NO_PIECE_TYPE => 0 | PAWN => 1 | KNIGHT => 2 | BISHOP => 3
         | ROOK => 4 | QUEEN => 5 | KING => 6
         end)%nat
  end.

(** A search limited to 10000 nodes. *)
Definition nodeLimits : SearchLimits :=
  {| timeLeft := fun _ => 0; increment := fun _ => 0; movesToGo := 0;
     maxDepth := 0; maxNodes := 10000; maxTime := 0; searchMoves := [] |}.

End TableCases.

(** ** What perft computes and what it does on the way *)

Module PerftSpec.

Import Perft.

Section Spec.

Variable P : Type.
Variable legalMoves : Side -> P -> list (Move * MoveFn P * MoveFn P).

(** The number of sequences of [n] generated moves from a position, the
    sides alternating. *)
Fixpoint leaves (n : nat) (Me : Side) (pos : P) : Z :=
  match n with
  | O => 1
  | S n' =>
      foldr (fun g acc => leaves n' (flipSide Me) (g.1.2 g.1.1 pos) + acc)
            0 (legalMoves Me pos)
  end.

(** The moves made and not yet taken back after the events [ev], on top
    of those in [made]; [None] when an [undoMove] does not answer the last
    [doMove]. *)
Fixpoint nest (ev : list Event) (made : list Move) : option (list Move) :=
  match ev with
  | [] => Some made
  | EvDo m :: rest => nest rest (m :: made)
  | EvUndo m :: rest =>
      match made with
      | m' :: made' => if m =? m' then nest rest made' else None
      | [] => None
      end
  | EvPrint _ _ :: rest => nest rest made
  end.

(** The lines written to [cout]: a move and its count. *)
Fixpoint printed (ev : list Event) : list (Move * Z) :=
  match ev with
  | [] => []
  | EvPrint m n :: rest => (m, n) :: printed rest
  | _ :: rest => printed rest
  end.

(** The sum of a list of counts. *)
Definition sumZ (l : list Z) : Z := foldr Z.add 0 l.

(** The lines of a divide run whose moves each have [k] more plies below
    them: a generated move with its count, when the count is not zero. *)
Definition divideLines (k : nat) (Me : Side) (pos : P) : list (Move * Z) :=
  filter (fun p => 0 < p.2)
    ((fun g => (g.1.1, wrap64 (leaves k (flipSide Me) (g.1.2 g.1.1 pos))))
       <$> legalMoves Me pos).

(** The line of one move in a divide run, from the count [val] of the
    move before it is reduced to the range of [size_t]. *)
Definition lineOf (val : Move * MoveFn P * MoveFn P -> Z)
    (g : Move * MoveFn P * MoveFn P) : list (Move * Z) :=
  if 0 <? wrap64 (val g) then [(g.1.1, wrap64 (val g))] else [].

(** The number of plies a call counts: [depth] from 1 on; below that the
    non-divide variant counts one ply and the divide variant two. *)
Definition plies (Div : bool) (depth : Z) : nat :=
  if 1 <=? depth then Z.to_nat depth else if Div then 2%nat else 1%nat.

End Spec.

End PerftSpec.

(** * Properties *)

(** ** The search budget and the killer table *)

Module EngineProofs.

Import Engine Cases.

Lemma useTournamentTime_white sd :
  useTournamentTime sd = true <-> timeLeft (limits sd) WHITE <> 0.
Proof.
  unfold useTournamentTime. rewrite Z.lor_diag, negb_true_iff, Z.eqb_neq.
  reflexivity.
Qed.

Lemma useFixedTime_spec sd :
  useFixedTime sd = true <-> 0 < maxTime (limits sd).
Proof. unfold useFixedTime. apply Z.ltb_lt. Qed.

Lemma useNodeCountLimit_spec sd :
  useNodeCountLimit sd = true <-> 0 < maxNodes (limits sd).
Proof. unfold useNodeCountLimit. apply Z.ltb_lt. Qed.

(** The self-call never produces a value unless the first operand of [||]
    already decides. *)
Lemma useTimeLimit_no_value sd :
  useTournamentTime sd = false -> forall fuel, useTimeLimit fuel sd = None.
Proof.
  intros Hno fuel. induction fuel as [|fuel IH]; simpl.
  - reflexivity.
  - rewrite Hno. exact IH.
Qed.

Lemma useTimeLimit_value sd fuel :
  useTournamentTime sd = true -> useTimeLimit (S fuel) sd = Some true.
Proof. intros Hyes. simpl. now rewrite Hyes. Qed.

(** [shouldStop] read through its three helpers. *)
Lemma shouldStop_by_helpers (now : TimeMs) (sd : SearchData) :
  shouldStop now sd = true <->
  nbNodes sd mod 1024 = 0 /\
  ((useTournamentTime sd = true /\ allocatedTime sd <= now - startTime sd) \/
   (useFixedTime sd = true /\ maxTime (limits sd) < now - startTime sd) \/
   (useNodeCountLimit sd = true /\ maxNodes (limits sd) <= nbNodes sd)).
Proof.
  unfold shouldStop.
  destruct (Z.eqb_spec (nbNodes sd mod 1024) 0) as [Hm|Hm]; simpl.
  2: { split; [discriminate | intros [Hc _]; contradiction]. }
  destruct (useTournamentTime sd && (allocatedTime sd <=? now - startTime sd))
    eqn:E1.
  { apply andb_true_iff in E1 as [Ha Hb]. apply Z.leb_le in Hb.
    split; [intros _|reflexivity]. split; [exact Hm|left; auto]. }
  destruct (useFixedTime sd && (maxTime (limits sd) <? now - startTime sd))
    eqn:E2.
  { apply andb_true_iff in E2 as [Ha Hb]. apply Z.ltb_lt in Hb.
    split; [intros _|reflexivity]. split; [exact Hm|right; left; auto]. }
  destruct (useNodeCountLimit sd && (maxNodes (limits sd) <=? nbNodes sd))
    eqn:E3.
  { apply andb_true_iff in E3 as [Ha Hb]. apply Z.leb_le in Hb.
    split; [intros _|reflexivity]. split; [exact Hm|right; right; auto]. }
  split; [discriminate|].
  intros [_ [[Ha Hb]|[[Ha Hb]|[Ha Hb]]]].
  + apply Z.leb_le in Hb. rewrite Ha, Hb in E1. discriminate.
  + apply Z.ltb_lt in Hb. rewrite Ha, Hb in E2. discriminate.
  + apply Z.leb_le in Hb. rewrite Ha, Hb in E3. discriminate.
Qed.

(** C3, amended in the fixed-time test only. Tournament time is in use when
    either side has time left; the statement is about the states in which
    White has time left or Black has none, where the test in the code agrees
    with that reading. There [shouldStop] answers true exactly when the node
    count is a multiple of 1024 and tournament time is in use with
    [elapsed >= allocatedTime], or fixed time is in use with
    [elapsed > maxTime] (strictly), or a node limit is in use with
    [nbNodes >= maxNodes]; with every limit field zero it answers false. *)
Theorem shouldStop_iff (now : TimeMs) (sd : SearchData) :
  timeLeft (limits sd) WHITE <> 0 \/ timeLeft (limits sd) BLACK = 0 ->
  (shouldStop now sd = true <->
     nbNodes sd mod 1024 = 0 /\
     (((timeLeft (limits sd) WHITE <> 0 \/ timeLeft (limits sd) BLACK <> 0)
       /\ allocatedTime sd <= now - startTime sd) \/
      (0 < maxTime (limits sd) /\ maxTime (limits sd) < now - startTime sd) \/
      (0 < maxNodes (limits sd) /\ maxNodes (limits sd) <= nbNodes sd)))
  /\ ((forall c, timeLeft (limits sd) c = 0) -> maxTime (limits sd) = 0 ->
      maxNodes (limits sd) = 0 -> shouldStop now sd = false).
Proof.
  intros Hclock.
  assert (Htour : useTournamentTime sd = true
                  <-> timeLeft (limits sd) WHITE <> 0
                      \/ timeLeft (limits sd) BLACK <> 0).
  { rewrite useTournamentTime_white. split; [auto|].
    intros [Hw|Hb]; [exact Hw|]. destruct Hclock as [Hw|Hz]; [exact Hw|].
    contradiction. }
  split.
  - rewrite shouldStop_by_helpers, Htour, useFixedTime_spec,
      useNodeCountLimit_spec. reflexivity.
  - intros Hz Ht Hn. destruct (shouldStop now sd) eqn:E; [|reflexivity].
    apply shouldStop_by_helpers in E as [_ [[Ha _]|[[Ha _]|[Ha _]]]].
    + apply useTournamentTime_white in Ha. now specialize (Hz WHITE).
    + apply useFixedTime_spec in Ha. lia.
    + apply useNodeCountLimit_spec in Ha. lia.
Qed.

(** C3 with both clocks running: 600 ms into a move that was allotted 500 ms,
    at node 1024. *)
Lemma shouldStop_iff_witness :
  (shouldStop 600 (mkData clockLimits 1024 0 500 []) = true <->
     nbNodes (mkData clockLimits 1024 0 500 []) mod 1024 = 0 /\
     (((timeLeft (limits (mkData clockLimits 1024 0 500 [])) WHITE <> 0
        \/ timeLeft (limits (mkData clockLimits 1024 0 500 [])) BLACK <> 0)
       /\ allocatedTime (mkData clockLimits 1024 0 500 [])
          <= 600 - startTime (mkData clockLimits 1024 0 500 [])) \/
      (0 < maxTime (limits (mkData clockLimits 1024 0 500 []))
       /\ maxTime (limits (mkData clockLimits 1024 0 500 []))
          < 600 - startTime (mkData clockLimits 1024 0 500 [])) \/
      (0 < maxNodes (limits (mkData clockLimits 1024 0 500 []))
       /\ maxNodes (limits (mkData clockLimits 1024 0 500 []))
          <= nbNodes (mkData clockLimits 1024 0 500 []))))
  /\ ((forall c, timeLeft (limits (mkData clockLimits 1024 0 500 [])) c = 0) ->
      maxTime (limits (mkData clockLimits 1024 0 500 [])) = 0 ->
      maxNodes (limits (mkData clockLimits 1024 0 500 [])) = 0 ->
      shouldStop 600 (mkData clockLimits 1024 0 500 []) = false).
Proof.
  apply (shouldStop_iff 600 (mkData clockLimits 1024 0 500 [])).
  left. discriminate.
Defined.

(** C3, the boundary: with [maxTime = 1000] and exactly 1000 ms elapsed at
    node 1024 the code keeps searching, so the claim with
    [elapsed >= maxTime] does not hold. *)
Lemma shouldStop_claimed_boundary_fails :
  ~ (forall (now : TimeMs) (sd : SearchData),
       shouldStop now sd = true <->
       nbNodes sd mod 1024 = 0 /\
       (((timeLeft (limits sd) WHITE <> 0 \/ timeLeft (limits sd) BLACK <> 0)
         /\ allocatedTime sd <= now - startTime sd) \/
        (0 < maxTime (limits sd) /\ maxTime (limits sd) <= now - startTime sd) \/
        (0 < maxNodes (limits sd) /\ maxNodes (limits sd) <= nbNodes sd))).
Proof.
  intros H.
  specialize (H 1000 (mkData fixedTimeLimits 1024 0 0 [])).
  destruct H as [_ H].
  assert (Hstop : shouldStop 1000 (mkData fixedTimeLimits 1024 0 0 []) = true).
  { apply H. split; [reflexivity|]. right; left. simpl. lia. }
  vm_compute in Hstop. discriminate.
Qed.

(** C4, at [go movetime 1000]: the claim wants the answer [true]; the body
    calls itself without end, whatever the number of unfoldings. *)
Theorem useTimeLimit_fixed_time_no_value :
  forall fuel : nat,
    useTimeLimit fuel (mkData fixedTimeLimits 0 0 0 []) = None
    /\ (useTournamentTime (mkData fixedTimeLimits 0 0 0 [])
        || useFixedTime (mkData fixedTimeLimits 0 0 0 [])) = true.
Proof.
  intros fuel. split.
  - apply useTimeLimit_no_value. reflexivity.
  - reflexivity.
Qed.

(** C5, at [go btime 60000]: Black has time left, yet the test reads
    White's field twice and answers false. *)
Theorem useTournamentTime_black_clock_ignored :
  timeLeft blackClockLimits BLACK <> 0
  /\ useTournamentTime (mkData blackClockLimits 0 0 0 []) = false.
Proof. split; [discriminate|reflexivity]. Qed.

Section Killers.

Context `{CH : ChessH}.

Lemma setKillers_id sd : setKillers sd (killerMoves sd) = sd.
Proof. now destruct sd. Qed.

(** C6: at an in-range ply whose two slots are distinct unless one is
    NONE, [updateKillers m ply] succeeds, the slots are still distinct
    unless one is NONE, a move different from slot 0 becomes slot 0 while
    the old slot 0 moves to slot 1, a move equal to slot 0 changes nothing,
    and no other ply or field changes. *)
Theorem updateKillers_keeps_distinct
    (m : Move) (ply : Z) (sd : SearchData) (k0 k1 : Move) :
  0 <= ply ->
  killerMoves sd !! Z.to_nat ply = Some (k0, k1) ->
  killersDistinct (k0, k1) ->
  exists sd',
    updateKillers m ply sd = Some sd'
    /\ (exists row, killerMoves sd' !! Z.to_nat ply = Some row
                    /\ killersDistinct row
                    /\ (m <> k0 -> row = (m, k0))
                    /\ (m = k0 -> row = (k0, k1)))
    /\ (m = k0 -> sd' = sd)
    /\ (forall j : nat, j <> Z.to_nat ply ->
          killerMoves sd' !! j = killerMoves sd !! j)
    /\ length (killerMoves sd') = length (killerMoves sd)
    /\ limits sd' = limits sd /\ nbNodes sd' = nbNodes sd
    /\ startTime sd' = startTime sd /\ allocatedTime sd' = allocatedTime sd.
Proof.
  intros Hply Hrow Hinv. unfold updateKillers.
  destruct (Z.ltb_spec ply 0) as [?|_]; [lia|].
  rewrite Hrow.
  pose proof (lookup_lt_Some _ _ _ Hrow) as Hlt.
  destruct (Z.eqb_spec k0 m) as [->|Hne]; simpl.
  - exists sd. split; [reflexivity|]. split.
    + exists (m, k1). repeat split; auto. intros; congruence.
    + repeat split; auto.
  - eexists. split; [reflexivity|]. simpl. split.
    + exists (m, k0). split; [now apply list_lookup_insert_eq|].
      split; [|split; [reflexivity|intros; congruence]].
      unfold killersDistinct; simpl. intros _ _ Heq. congruence.
    + split; [intros; congruence|].
      split; [intros j Hj; now apply list_lookup_insert_ne|].
      split; [apply length_insert|auto].
Qed.

End Killers.

(** C6 at a two-ply table: a new killer at ply 1. *)
Lemma updateKillers_keeps_distinct_witness :
  exists sd',
    updateKillers 903 1 (mkData noLimits 0 0 0 [(0, 0); (967, 0)]) = Some sd'
    /\ (exists row, killerMoves sd' !! Z.to_nat 1 = Some row
                    /\ killersDistinct (CH := Ref.refChess) row
                    /\ (903 <> 967 -> row = (903, 967))
                    /\ (903 = 967 -> row = (967, 0)))
    /\ (903 = 967 -> sd' = mkData noLimits 0 0 0 [(0, 0); (967, 0)])
    /\ (forall j : nat, j <> Z.to_nat 1 ->
          killerMoves sd' !! j
          = killerMoves (mkData noLimits 0 0 0 [(0, 0); (967, 0)]) !! j)
    /\ length (killerMoves sd') = 2%nat
    /\ limits sd' = noLimits /\ nbNodes sd' = 0
    /\ startTime sd' = 0 /\ allocatedTime sd' = 0.
Proof.
  apply (updateKillers_keeps_distinct (CH := Ref.refChess) 903 1
           (mkData noLimits 0 0 0 [(0, 0); (967, 0)]) 967 0).
  - lia.
  - reflexivity.
  - unfold killersDistinct; simpl. intros _ H. now contradiction H.
Defined.

End EngineProofs.

(** ** Perft *)

Module PerftProofs.

Import Perft Cases.

Lemma wrap64_succ t : wrap64 (wrap64 t + 1) = wrap64 (t + 1).
Proof. unfold wrap64. now rewrite Zplus_mod_idemp_l. Qed.

Lemma wrap64_add_l t n : wrap64 (wrap64 t + n) = wrap64 (t + n).
Proof. unfold wrap64. now rewrite Zplus_mod_idemp_l. Qed.

Lemma wrap64_small z : 0 <= z < 2 ^ 64 -> wrap64 z = z.
Proof. intros Hz. unfold wrap64. now apply Z.mod_small. Qed.

Section Facts.

Variable P : Type.
Variable legalMoves : Side -> P -> list (Move * MoveFn P * MoveFn P).

Local Abbreviation perft := (Perft.perft P legalMoves).

(** The loop of the leaf case counts the generated moves and touches
    neither the position nor the event list. *)
Lemma count_loop gen t (pos : P) (ev : list (Event)) :
  forEachMove P gen
    (fun m doMH undoMH '(total, pos, ev) => Some (wrap64 (total + 1), pos, ev))
    (wrap64 t, pos, ev)
  = Some (wrap64 (t + Z.of_nat (length gen)), pos, ev).
Proof.
  revert t. induction gen as [|[[m d] u] gen IH]; intros t; simpl.
  - now rewrite Z.add_0_r.
  - rewrite wrap64_succ, IH.
    now replace (t + 1 + Z.of_nat (length gen))
      with (t + Z.of_nat (S (length gen))) by lia.
Qed.

Lemma perft_leaf fuel Me depth (pos : P) :
  depth <= 1 ->
  perft fuel false Me depth pos
  = Some (wrap64 (Z.of_nat (length (legalMoves Me pos))), pos, []).
Proof.
  intros Hd.
  apply Z.leb_le in Hd.
  destruct fuel; cbn [Perft.perft negb andb]; rewrite Hd;
    change 0 with (wrap64 0) at 1; now rewrite count_loop.
Qed.

(** C10: for every depth at most 1, zero and negative depths included,
    the non-divide perft returns the number of legal moves of the position
    (a count below [2^64], the range of [size_t]), leaves the position as it
    was, and calls neither [doMove] nor [undoMove]. *)
Theorem perft_leaf_counts_moves
    (fuel : nat) (Me : Side) (depth : Z) (pos : P) :
  depth <= 1 ->
  Z.of_nat (length (legalMoves Me pos)) < 2 ^ 64 ->
  perft fuel false Me depth pos
  = Some (Z.of_nat (length (legalMoves Me pos)), pos, []).
Proof.
  intros Hd Hlen. rewrite perft_leaf by exact Hd.
  rewrite wrap64_small; [reflexivity|lia].
Qed.

(** Two loop bodies that agree on totals and positions give loops that
    agree on totals and positions. *)
Lemma forEachMove_outcome gen body1 body2 :
  (forall m d u t (q : P) ev1 ev2, (m, d, u) ∈ gen ->
      outcome (body1 m d u (t, q, ev1)) = outcome (body2 m d u (t, q, ev2))) ->
  forall t q ev1 ev2,
    outcome (forEachMove P gen body1 (t, q, ev1))
    = outcome (forEachMove P gen body2 (t, q, ev2)).
Proof.
  induction gen as [|[[m d] u] gen IH]; intros Hb t q ev1 ev2; simpl.
  - reflexivity.
  - assert (Hin : (m, d, u) ∈ (m, d, u) :: gen) by apply list_elem_of_here.
    specialize (Hb m d u t q ev1 ev2 Hin) as Hhd.
    destruct (body1 m d u (t, q, ev1)) as [[[t1 q1] e1]|],
             (body2 m d u (t, q, ev2)) as [[[t2 q2] e2]|];
      simpl in Hhd; try discriminate; [|reflexivity].
    injection Hhd as -> ->. apply IH.
    intros m' d' u' t' q' e1' e2' Hin'. apply Hb. now apply list_elem_of_further.
Qed.

(** A loop whose body always returns to the position [pos] ends in [pos]. *)
Lemma forEachMove_restores gen body (pos : P) :
  (forall m d u t ev, (m, d, u) ∈ gen ->
      exists t' ev', body m d u (t, pos, ev) = Some (t', pos, ev')) ->
  forall t ev, exists t' ev',
    forEachMove P gen body (t, pos, ev) = Some (t', pos, ev').
Proof.
  induction gen as [|[[m d] u] gen IH]; intros Hb t ev; simpl.
  - eauto.
  - destruct (Hb m d u t ev) as (t1 & ev1 & ->); [apply list_elem_of_here|].
    apply IH. intros m' d' u' t' ev' Hin'. apply Hb.
    now apply list_elem_of_further.
Qed.

Section Inverses.

(** [undoMove] takes back what [doMove] did, for every generated move. *)
Hypothesis undo_do :
  forall (Me : Side) (pos : P) m d u,
    (m, d, u) ∈ legalMoves Me pos -> u m (d m pos) = pos.

(** With enough fuel the non-divide perft returns, and it restores the
    position. *)
Lemma perft_false_returns fuel :
  forall Me depth (pos : P),
    (Z.to_nat depth <= S fuel)%nat ->
    exists total ev, perft fuel false Me depth pos = Some (total, pos, ev).
Proof.
  induction fuel as [|fuel IH]; intros Me depth pos Hfuel.
  - assert (depth <= 1) by lia. rewrite perft_leaf by assumption. eauto.
  - destruct (Z.leb_spec depth 1) as [Hle|Hgt].
    + rewrite perft_leaf by assumption. eauto.
    + assert (Hgt' : (depth <=? 1) = false) by (apply Z.leb_gt; lia).
      assert (Hneq : (depth =? 1) = false) by (apply Z.eqb_neq; lia).
      cbn [Perft.perft negb andb]. rewrite Hgt', Hneq.
      apply forEachMove_restores.
      intros m d u t ev Hin.
      destruct (IH (flipSide Me) (depth - 1) (d m pos)) as (n & ev' & ->); [lia|].
      rewrite (undo_do Me pos m d u Hin). eauto.
Qed.

(** The two variants agree at every depth of at least 1, given fuel for
    the nesting. *)
Lemma perft_agree (fuel : nat) (Me : Side) (depth : Z) (pos : P) :
  1 <= depth ->
  (Z.to_nat depth <= fuel)%nat ->
  exists total ev1 ev2,
    perft fuel true Me depth pos = Some (total, pos, ev1)
    /\ perft fuel false Me depth pos = Some (total, pos, ev2).
Proof.
  intros Hd Hfuel.
  destruct (perft_false_returns fuel Me depth pos) as (total & ev2 & Hf); [lia|].
  exists total.
  enough (Ho : outcome (perft fuel true Me depth pos)
               = outcome (perft fuel false Me depth pos)).
  { rewrite Hf in Ho. destruct (perft fuel true Me depth pos) as [[[t q] e]|];
      simpl in Ho; [|discriminate].
    injection Ho as -> ->. eauto. }
  destruct fuel as [|fuel]; [lia|].
  destruct (Z.eqb_spec depth 1) as [->|Hne].
  - (* depth = 1: one node per move on both sides *)
    rewrite perft_leaf by lia.
    rewrite <- (Z.add_0_l (Z.of_nat _)), <- count_loop.
    cbn [Perft.perft negb andb]. change (1 =? 1) with true.
    cbn [andb]. apply forEachMove_outcome.
    intros m d u t q ev1 ev3 _. reflexivity.
  - (* depth >= 2: the same body up to the printed lines *)
    assert (Hgt : (depth <=? 1) = false) by (apply Z.leb_gt; lia).
    assert (Hneq : (depth =? 1) = false) by (now apply Z.eqb_neq).
    cbn [Perft.perft negb andb]. rewrite Hgt, Hneq. cbn [andb].
    apply forEachMove_outcome.
    intros m d u t q ev1 ev3 _.
    destruct (Perft.perft P legalMoves fuel false (flipSide Me) (depth - 1) (d m q))
      as [[[n q'] e]|]; [|reflexivity].
    cbn [outcome]. reflexivity.
Qed.

(** C9: when [undoMove] inverts [doMove] on generated moves, for every
    position and every depth of at least 1 the divide and the non-divide
    perft both return, with the same total, and both leave the position as
    it was on entry: for [perft<Div, Me>] with any side and any fuel that
    covers the nesting, and for the dispatching [perft<Div>]. *)
Theorem perft_divide_agrees
    (getSideToMove : P -> Side) (Me : Side) (depth : Z) (pos : P) :
  1 <= depth ->
  (forall fuel : nat, (Z.to_nat depth <= fuel)%nat ->
     exists total ev1 ev2,
       perft fuel true Me depth pos = Some (total, pos, ev1)
       /\ perft fuel false Me depth pos = Some (total, pos, ev2))
  /\ (exists total ev1 ev2,
        perftSide P getSideToMove legalMoves true depth pos
        = Some (total, pos, ev1)
        /\ perftSide P getSideToMove legalMoves false depth pos
           = Some (total, pos, ev2)).
Proof.
  intros Hd. split.
  - intros fuel Hfuel. now apply perft_agree.
  - unfold perftSide, perftFuel.
    destruct (getSideToMove pos); apply perft_agree; lia.
Qed.

End Inverses.

End Facts.

(** *** Perft on the toy game *)

Lemma toy_undo_do (Me : Side) (h : list Move) m d u :
  (m, d, u) ∈ toyMoves Me h -> u m (d m h) = h.
Proof.
  unfold toyMoves. destruct (length h <? 3)%nat.
  - intros Hin. apply list_elem_of_In in Hin.
    destruct Hin as [Heq|[Heq|[]]]; injection Heq as <- <- <-; reflexivity.
  - intros Hin. apply list_elem_of_In in Hin. destruct Hin.
Qed.

(** C10 on the toy game, at depth 0. *)
Lemma perft_leaf_counts_moves_witness :
  perft (list Move) toyMoves 0 false WHITE 0 []
  = Some (Z.of_nat (length (toyMoves WHITE [])), [], []).
Proof.
  apply (perft_leaf_counts_moves (list Move) toyMoves 0 WHITE 0 []).
  - lia.
  - vm_compute. reflexivity.
Defined.

(** C9 on the toy game, at depth 3. *)
Lemma perft_divide_agrees_witness :
  (forall fuel : nat, (Z.to_nat 3 <= fuel)%nat ->
     exists total ev1 ev2,
       perft (list Move) toyMoves fuel true WHITE 3 [] = Some (total, [], ev1)
       /\ perft (list Move) toyMoves fuel false WHITE 3 [] = Some (total, [], ev2))
  /\ (exists total ev1 ev2,
        perftSide (list Move) toySide toyMoves true 3 [] = Some (total, [], ev1)
        /\ perftSide (list Move) toySide toyMoves false 3 []
           = Some (total, [], ev2)).
Proof.
  apply (perft_divide_agrees (list Move) toyMoves toy_undo_do toySide WHITE 3 []).
  lia.
Defined.

End PerftProofs.

(** ** The move picker *)

Module MovePickerProofs.

Import MovePicker Stages.

Section Loops.

Context `{CH : ChessH} {SS : StdSort}.
Context {S : Type}.
Variable handler : Handler S.

Local Abbreviation yieldAll := (Stages.yieldAll handler).

Lemma bindE_ext {X Y} (m1 m2 : Enum S X) (k1 k2 : X -> Enum S Y) s :
  (forall s', m1 s' = m2 s') -> (forall x s', k1 x s' = k2 x s') ->
  bindE m1 k1 s = bindE m2 k2 s.
Proof.
  intros Hm Hk. unfold bindE. rewrite Hm.
  destruct (m2 s) as [[x|] s']; [apply Hk|reflexivity].
Qed.

Lemma bindE_assoc {X Y Z'} (m : Enum S X) (k : X -> Enum S Y)
    (k' : Y -> Enum S Z') s :
  bindE (bindE m k) k' s = bindE m (fun x => bindE (k x) k') s.
Proof. unfold bindE. now destruct (m s) as [[x|] s']. Qed.

Lemma bindE_ret_l {X Y} (x : X) (k : X -> Enum S Y) s :
  bindE (ret x) k s = k x s.
Proof. reflexivity. Qed.

Lemma yieldAll_app l1 l2 s :
  yieldAll (l1 ++ l2) s = bindE (yieldAll l1) (fun _ => yieldAll l2) s.
Proof.
  revert s. induction l1 as [|m l1 IH]; intros s; simpl.
  - reflexivity.
  - rewrite bindE_assoc. apply bindE_ext; [reflexivity|].
    intros _ s'. apply IH.
Qed.

(** The evasions loop yields what is left after dropping the TT move. *)
Lemma evasionsLoop_spec ttMove moves s :
  evasionsLoop ttMove handler moves s
  = yieldAll (filter (fun sm => move sm <> ttMove) moves) s.
Proof.
  revert s. induction moves as [|m moves IH]; intros s; simpl.
  - reflexivity.
  - destruct (Z.eqb_spec (move m) ttMove) as [Heq|Hne].
    + rewrite filter_cons_False by (intros Hc; now apply Hc). apply IH.
    + rewrite filter_cons_True by exact Hne. simpl.
      apply bindE_ext; [reflexivity|]. intros _ s'. apply IH.
Qed.

(** A range loop yields the elements at its offsets. *)
Lemma rangeLoop_spec n current moves s :
  rangeLoop handler n current moves s
  = yieldAll (take n (drop current moves)) s.
Proof.
  revert current s. induction n as [|n IH]; intros current s; simpl.
  - reflexivity.
  - destruct (moves !! current) as [cur|] eqn:Hcur.
    + rewrite (drop_S _ _ _ Hcur). simpl.
      apply bindE_ext; [reflexivity|]. intros _ s'. apply IH.
    + rewrite drop_ge by (now apply lookup_ge_None). reflexivity.
Qed.

(** A split loop started at [current] with [endBad <= current] yields the
    elements from [current] on that are not deferred; the deferred ones end
    up, in order, at offsets [endBad ..], and nothing below [endBad]
    changes. *)
Lemma splitLoop_spec (defer : ScoredMove -> bool) n :
  forall current endBad moves,
    (endBad <= current)%nat ->
    (current + n)%nat = length moves ->
    exists moves',
      length moves' = length moves
      /\ take (endBad + length (filter (fun sm => defer sm = true)
                                       (drop current moves))) moves'
         = take endBad moves
           ++ filter (fun sm => defer sm = true) (drop current moves)
      /\ forall s,
           splitLoop handler defer n current endBad moves s
           = bindE (yieldAll (filter (fun sm => defer sm = false)
                                     (drop current moves)))
                   (fun _ => ret (moves',
                       (endBad + length (filter (fun sm => defer sm = true)
                                               (drop current moves)))%nat)) s.
Proof.
  induction n as [|n IH]; intros current endBad moves Hle Hlen.
  - exists moves. rewrite drop_ge by lia. simpl.
    rewrite Nat.add_0_r, app_nil_r. auto.
  - assert (Hlt : (current < length moves)%nat) by lia.
    destruct (lookup_lt_is_Some_2 moves current Hlt) as [cur Hcur].
    rewrite (drop_S _ _ _ Hcur). simpl. rewrite Hcur.
    destruct (defer cur) eqn:Hd.
    + rewrite filter_cons_True by exact Hd.
      rewrite (filter_cons_False (fun sm => defer sm = false))
        by (rewrite Hd; discriminate).
      destruct (IH (Datatypes.S current) (Datatypes.S endBad)
                   (<[endBad := cur]> moves)) as (moves' & Hl & Ht & Hrun).
      { lia. } { rewrite length_insert. lia. }
      rewrite length_insert in Hl.
      rewrite drop_insert_lt in Ht, Hrun by lia.
      exists moves'. split; [exact Hl|]. split.
      * simpl. rewrite Nat.add_succ_r. simpl in Ht. rewrite Ht.
        rewrite (take_S_r _ _ cur)
          by (apply list_lookup_insert_eq; lia).
        rewrite take_insert_ge by lia. now rewrite <- app_assoc.
      * intros s. rewrite Hrun. simpl. now rewrite Nat.add_succ_r.
    + rewrite filter_cons_False by (rewrite Hd; discriminate).
      rewrite (filter_cons_True (fun sm => defer sm = false)) by exact Hd.
      destruct (IH (Datatypes.S current) endBad moves)
        as (moves' & Hl & Ht & Hrun); [lia|lia|].
      exists moves'. split; [exact Hl|]. split; [exact Ht|].
      intros s. simpl. rewrite bindE_assoc.
      apply bindE_ext; [reflexivity|]. intros _ s'. apply Hrun.
Qed.

Lemma bindE_ret_r (m : Enum S unit) s : bindE m (fun _ => ret tt) s = m s.
Proof. unfold bindE, ret. now destruct (m s) as [[[]|] s']. Qed.

Lemma finish_ext {X} (m1 m2 : Enum S X) s :
  (forall s', m1 s' = m2 s') -> finish m1 s = finish m2 s.
Proof. intros H. unfold finish. now rewrite H. Qed.

End Loops.

(** *** The stages as lists *)

Section Staged.

Context `{CH : ChessH} {SS : StdSort}.

Variable Ty : MovePickerType.
Variable Me : Side.
Variable pos : Position.
Variables ttMove killer1 killer2 counter : Move.

Local Abbreviation own := (Stages.own Me).
Local Abbreviation keepEvasion := (Stages.keepEvasion ttMove).
Local Abbreviation keepTactical := (Stages.keepTactical Ty pos ttMove).
Local Abbreviation keepQuiet :=
  (Stages.keepQuiet ttMove killer1 killer2 counter).
Local Abbreviation keptOf := (Stages.keptOf Me pos).
Local Abbreviation ttStage := (Stages.ttStage Me pos ttMove).
Local Abbreviation evasions := (Stages.evasions Me pos ttMove).
Local Abbreviation tacticals := (Stages.tacticals Ty Me pos ttMove).
Local Abbreviation goodTacticals := (Stages.goodTacticals Ty Me pos ttMove).
Local Abbreviation badTacticals := (Stages.badTacticals Ty Me pos ttMove).
Local Abbreviation killer1Stage := (Stages.killer1Stage Me pos ttMove killer1).
Local Abbreviation killer2Stage := (Stages.killer2Stage Me pos ttMove killer2).
Local Abbreviation counterStage :=
  (Stages.counterStage Me pos ttMove killer1 killer2 counter).
Local Abbreviation quietMoves :=
  (Stages.quietMoves Me pos ttMove killer1 killer2 counter).
Local Abbreviation sortedTail :=
  (Stages.sortedTail Ty Me pos ttMove killer1 killer2 counter).
Local Abbreviation goodQuietsYield :=
  (Stages.goodQuietsYield Ty Me pos ttMove killer1 killer2 counter).
Local Abbreviation badTacticalsYield :=
  (Stages.badTacticalsYield Ty Me pos ttMove killer1 killer2 counter).
Local Abbreviation badQuietsYield :=
  (Stages.badQuietsYield Ty Me pos ttMove killer1 killer2 counter).
Local Abbreviation staged :=
  (Stages.staged Ty Me pos ttMove killer1 killer2 counter).
Local Abbreviation kept :=
  (Stages.kept Ty Me pos ttMove killer1 killer2 counter).

(** A callback that pushes the moves it keeps collects them in order. *)
Lemma collect_spec (cb : Move -> MoveOp -> MoveOp -> list ScoredMove
                         -> bool * list ScoredMove)
    (keep : Move -> bool) (sc : Move -> Z) :
  (forall m d u moves,
      cb m d u moves
      = (true, if keep m then push_back moves (scored sc (m, d, u)) else moves)) ->
  forall gen moves,
    enumerateLegalMoves gen cb moves
    = (true, moves ++ (scored sc <$> filter (fun g => keep (genMove g) = true) gen)).
Proof.
  intros Hcb. induction gen as [|[[m d] u] gen IH]; intros moves; simpl.
  - now rewrite app_nil_r.
  - rewrite Hcb. rewrite IH. f_equal. unfold genMove at 2; simpl.
    destruct (keep m) eqn:Hk.
    + rewrite filter_cons_True by exact Hk. unfold push_back.
      now rewrite <- app_assoc.
    + rewrite filter_cons_False by (unfold genMove; simpl; congruence).
      reflexivity.
Qed.

Section Run.

Context {S : Type}.
Variable handler : Handler S.

Lemma collectEvasion_run moves :
  enumerateLegalMoves (legalMoves pos Me ALL_MOVES) (collectEvasion pos ttMove) moves
  = (true, moves ++ (scored (scoreEvasion pos) <$> keptOf keepEvasion ALL_MOVES)).
Proof.
  apply collect_spec. intros m d u mv. unfold collectEvasion, Stages.keepEvasion.
  now destruct (m =? ttMove).
Qed.

Lemma collectTactical_run moves :
  enumerateLegalMoves (legalMoves pos Me TACTICAL_MOVES)
                      (collectTactical Ty pos ttMove) moves
  = (true, moves ++ (scored (scoreTactical pos)
                         <$> keptOf keepTactical TACTICAL_MOVES)).
Proof.
  apply collect_spec. intros m d u mv. unfold collectTactical, Stages.keepTactical.
  destruct (m =? ttMove); [reflexivity|]. simpl.
  destruct Ty; [reflexivity|]. now destruct (see pos m 0).
Qed.

Lemma collectQuiet_run moves :
  enumerateLegalMoves (legalMoves pos Me QUIET_MOVES)
    (collectQuiet Me pos ttMove killer1 killer2 counter (threatened Me pos)) moves
  = (true, moves ++ quietMoves).
Proof.
  apply collect_spec. intros m d u mv. unfold collectQuiet, Stages.keepQuiet.
  destruct (m =? ttMove); [reflexivity|]. simpl.
  now destruct ((killer1 =? m) || (killer2 =? m) || (counter =? m)).
Qed.

Lemma yieldIf_spec (cond : bool) m s :
  yieldIf Me handler cond m s = yieldAll handler (if cond then [own m] else []) s.
Proof.
  unfold yieldIf. destruct cond; simpl; [|reflexivity].
  now rewrite bindE_ret_r.
Qed.

Lemma length_sortedTail :
  length sortedTail = (length badTacticals + length quietMoves)%nat.
Proof.
  unfold Stages.sortedTail. rewrite (Permutation_length (std_sort_perm _)).
  apply length_app.
Qed.

(** The stages after the good tacticals, run on any array whose first
    [length badTacticals] elements are the deferred tacticals. *)
Lemma quietStages_spec moves s :
  take (length badTacticals) moves = badTacticals ->
  quietStages Me pos ttMove killer1 killer2 counter handler
              moves (length badTacticals) s
  = yieldAll handler
      (killer1Stage ++ killer2Stage ++ counterStage
       ++ goodQuietsYield ++ badTacticalsYield ++ badQuietsYield) s.
Proof.
  intros Htake. unfold quietStages.
  assert (Harr : quietsArray Me pos ttMove killer1 killer2 counter
                   moves (length badTacticals) = sortedTail).
  { unfold quietsArray. rewrite Htake, collectQuiet_run. reflexivity. }
  rewrite Harr. clear Harr.
  pose proof length_sortedTail as Hlen.
  destruct (splitLoop_spec handler deferQuiet
              (length sortedTail - length badTacticals)
              (length badTacticals) (length badTacticals) sortedTail)
    as (moves' & Hl & Ht & Hrun); [lia|lia|].
  fold goodQuietsYield badQuietsYield badTacticalsYield in Ht, Hrun.
  assert (Hk : length badTacticalsYield = length badTacticals).
  { unfold Stages.badTacticalsYield. apply length_take_le. lia. }
  assert (HbadT : take (length badTacticals) moves' = badTacticalsYield).
  { rewrite <- (take_app_length' badTacticalsYield badQuietsYield
                  (length badTacticals)) by now rewrite Hk.
    rewrite <- Ht, take_take. f_equal. lia. }
  assert (HbadQ : take (length badQuietsYield) (drop (length badTacticals) moves')
                  = badQuietsYield).
  { rewrite take_drop_commute, Ht. apply drop_app_length'. now rewrite Hk. }
  rewrite yieldAll_app.
  apply bindE_ext; [intros s'; apply yieldIf_spec|]. intros _ s1.
  rewrite yieldAll_app.
  apply bindE_ext; [intros s'; apply yieldIf_spec|]. intros _ s2.
  rewrite yieldAll_app.
  apply bindE_ext; [intros s'; apply yieldIf_spec|]. intros _ s3.
  unfold goodQuietsStage.
  etransitivity; [apply bindE_ext; [exact Hrun|intros; reflexivity]|].
  rewrite bindE_assoc, yieldAll_app.
  apply bindE_ext; [reflexivity|]. intros _ s4.
  rewrite bindE_ret_l, yieldAll_app.
  unfold badTacticalsStage, badQuietsStage.
  apply bindE_ext.
  - intros s'. rewrite rangeLoop_spec, drop_0. now rewrite HbadT.
  - intros _ s'. rewrite rangeLoop_spec.
    replace (length badTacticals + length badQuietsYield - length badTacticals)%nat
      with (length badQuietsYield) by lia.
    now rewrite HbadQ.
Qed.

(** [enumerate] calls the handler on the staged moves, in order, until the
    handler stops it. *)
Lemma enumerate_staged s :
  enumerate Ty Me pos ttMove killer1 killer2 counter handler s
  = finish (yieldAll handler staged) s.
Proof.
  unfold enumerate, Stages.staged. apply finish_ext. intros s0.
  rewrite yieldAll_app. apply bindE_ext.
  { intros s'. unfold Stages.ttStage. destruct (isLegal pos Me ttMove); simpl;
      [now rewrite bindE_ret_r|reflexivity]. }
  intros _ s1. destruct (inCheck pos).
  - rewrite collectEvasion_run. simpl. apply evasionsLoop_spec.
  - rewrite collectTactical_run. simpl. fold tacticals.
    destruct (splitLoop_spec handler (deferTactical Ty pos)
                (length tacticals) 0 0 tacticals)
      as (moves' & Hl & Ht & Hrun); [lia|lia|].
    rewrite drop_0 in Ht, Hrun. simpl in Ht, Hrun.
    fold goodTacticals badTacticals in Ht, Hrun.
    etransitivity; [apply bindE_ext; [exact Hrun|intros; reflexivity]|].
    rewrite bindE_assoc, yieldAll_app.
    apply bindE_ext; [reflexivity|]. intros _ s2.
    rewrite bindE_ret_l. destruct Ty eqn:HTy.
    + rewrite <- HTy in Ht |- *. now apply quietStages_spec.
    + reflexivity.
Qed.

End Run.

(** *** What the handler sees *)

Lemma finish_state {S X} (m : Enum S X) s : (finish m s).2 = (m s).2.
Proof. unfold finish. now destruct (m s) as [[x|] s']. Qed.

Section Logs.

Context {S : Type}.

(** An instrumented run appends to the log a prefix of the moves run. *)
Lemma yieldAll_logged (h : Handler S) l :
  forall s log, exists pre,
    pre `prefix_of` (move <$> l)
    /\ (yieldAll (logged h) l (s, log)).2.2 = log ++ pre.
Proof.
  induction l as [|m l IH]; intros s log.
  - exists []. split; [apply prefix_nil|]. simpl. now rewrite app_nil_r.
  - simpl. unfold bindE, yield, logged at 1. simpl.
    destruct (h (move m) (doMove m) (undoMove m) s) as [[|] s'].
    + destruct (IH s' (log ++ [move m])) as (pre & Hpre & Heq).
      exists (move m :: pre). split; [now apply prefix_cons|].
      rewrite Heq, <- app_assoc. reflexivity.
    + exists [move m]. split; [apply prefix_cons, prefix_nil|reflexivity].
Qed.

Lemma enumerate_log_prefix (h : Handler S) s :
  (enumerate Ty Me pos ttMove killer1 killer2 counter (logged h) (s, [])).2.2
  `prefix_of` (move <$> staged).
Proof.
  rewrite enumerate_staged, finish_state.
  destruct (yieldAll_logged h staged s []) as (pre & Hpre & ->). exact Hpre.
Qed.

End Logs.

Lemma yieldAll_recorder l :
  forall log, yieldAll recorder l log = (Some tt, log ++ (move <$> l)).
Proof.
  induction l as [|m l IH]; intros log; simpl.
  - unfold ret. now rewrite app_nil_r.
  - unfold bindE, yield, recorder at 1. rewrite IH, <- app_assoc. reflexivity.
Qed.

(** A full enumeration yields the staged moves. *)
Lemma yielded_staged :
  yielded Ty Me pos ttMove killer1 killer2 counter = move <$> staged.
Proof.
  unfold yielded. rewrite enumerate_staged, finish_state, yieldAll_recorder.
  reflexivity.
Qed.

(** *** The staged moves up to order *)

Lemma move_scored sc (l : list GenMove) :
  move <$> (scored sc <$> l) = genMove <$> l.
Proof.
  induction l as [|g l IH]; [reflexivity|].
  rewrite !fmap_cons, IH. reflexivity.
Qed.

Lemma filter_split (f : ScoredMove -> bool) l :
  filter (fun sm => f sm = false) l ++ filter (fun sm => f sm = true) l ≡ₚ l.
Proof.
  induction l as [|x l IH]; simpl; [reflexivity|].
  destruct (f x) eqn:Hf.
  - rewrite (filter_cons_False (fun sm => f sm = false)) by congruence.
    rewrite (filter_cons_True (fun sm => f sm = true)) by assumption.
    rewrite <- Permutation_middle. now rewrite IH.
  - rewrite (filter_cons_True (fun sm => f sm = false)) by assumption.
    rewrite (filter_cons_False (fun sm => f sm = true)) by congruence.
    simpl. now rewrite IH.
Qed.

Lemma filter_all {A} (P : A -> Prop) `{forall x, Decision (P x)} (l : list A) :
  Forall P l -> filter P l = l.
Proof.
  induction 1 as [|x l Hx _ IH]; [reflexivity|].
  rewrite filter_cons_True by assumption. now rewrite IH.
Qed.

Lemma keptOf_keep keep T m :
  m ∈ genMove <$> keptOf keep T ->
  keep m = true /\ m ∈ genMove <$> legalMoves pos Me T.
Proof.
  intros Hin. apply list_elem_of_fmap in Hin as (g & -> & Hg).
  apply list_elem_of_filter in Hg as [Hk Hg].
  split; [exact Hk|]. now apply list_elem_of_fmap_2.
Qed.

Lemma keptOf_intro keep T m :
  keep m = true -> m ∈ genMove <$> legalMoves pos Me T ->
  m ∈ genMove <$> keptOf keep T.
Proof.
  intros Hk Hin. apply list_elem_of_fmap in Hin as (g & -> & Hg).
  apply list_elem_of_fmap_2. now apply list_elem_of_filter.
Qed.

Lemma evasions_tt_free :
  Forall (fun sm => move sm <> ttMove)
         (scored (scoreEvasion pos) <$> keptOf keepEvasion ALL_MOVES).
Proof.
  apply Forall_forall. intros sm Hin.
  apply list_elem_of_fmap in Hin as (g & -> & Hg).
  apply list_elem_of_filter in Hg as [Hk _].
  unfold Stages.keepEvasion in Hk. apply negb_true_iff, Z.eqb_neq in Hk. exact Hk.
Qed.

(** The last three stages together are the deferred tacticals and the
    quiet moves, in some order. *)
Lemma tail_stages_perm :
  goodQuietsYield ++ badTacticalsYield ++ badQuietsYield ≡ₚ badTacticals ++ quietMoves.
Proof.
  unfold Stages.goodQuietsYield, Stages.badTacticalsYield, Stages.badQuietsYield.
  rewrite (Permutation_app_comm (take _ _)), app_assoc, filter_split.
  rewrite Permutation_app_comm, take_drop. apply std_sort_perm.
Qed.

Lemma staged_perm : move <$> staged ≡ₚ kept.
Proof.
  unfold Stages.staged, Stages.kept. rewrite fmap_app. apply Permutation_app_head.
  destruct (inCheck pos).
  - unfold Stages.evasions. rewrite (std_sort_perm _).
    rewrite filter_all by apply evasions_tt_free. now rewrite move_scored.
  - assert (Ht : (move <$> goodTacticals) ++ (move <$> badTacticals)
                 ≡ₚ genMove <$> keptOf keepTactical TACTICAL_MOVES).
    { rewrite <- fmap_app. unfold Stages.goodTacticals, Stages.badTacticals.
      rewrite filter_split. unfold Stages.tacticals.
      rewrite (std_sort_perm _). now rewrite move_scored. }
    destruct Ty eqn:HTy.
    + rewrite <- HTy in Ht |- *. clear HTy.
      rewrite <- Ht. rewrite !fmap_app.
      rewrite <- !fmap_app, tail_stages_perm, !fmap_app.
      unfold Stages.quietMoves at 1. rewrite move_scored.
      rewrite <- !app_assoc. apply Permutation_app_head.
      rewrite !app_assoc. apply Permutation_app_tail.
      rewrite <- !app_assoc.
      rewrite (Permutation_app_comm (move <$> badTacticals)).
      now rewrite <- !app_assoc.
    + rewrite app_nil_r in *. rewrite <- Ht.
      unfold Stages.badTacticals, deferTactical.
      assert (Hnone : forall l : list ScoredMove,
                 filter (fun _ : ScoredMove => false = true) l = []).
      { clear. induction l as [|x l IH]; [reflexivity|].
        now rewrite filter_cons_False by discriminate. }
      rewrite Hnone. simpl. now rewrite !app_nil_r.
Qed.

(** *** Membership in the stages *)

Lemma in_ttStage m : m ∈ move <$> ttStage -> m = ttMove /\ isLegal pos Me ttMove = true.
Proof.
  unfold Stages.ttStage. destruct (isLegal pos Me ttMove); simpl.
  - intros Hin. apply list_elem_of_singleton in Hin. auto.
  - intros Hin. now apply elem_of_nil in Hin.
Qed.

Lemma in_killer1Stage m :
  m ∈ move <$> killer1Stage ->
  m = killer1 /\ m <> ttMove /\ isTactical pos m = false /\ isLegal pos Me m = true.
Proof.
  unfold Stages.killer1Stage.
  destruct (negb (killer1 =? ttMove) && negb (isTactical pos killer1)
            && isLegal pos Me killer1) eqn:Hc; simpl.
  - intros Hin. apply list_elem_of_singleton in Hin. subst m.
    apply andb_true_iff in Hc as [Hc Hl]. apply andb_true_iff in Hc as [Ht Hq].
    apply negb_true_iff in Ht, Hq. apply Z.eqb_neq in Ht. auto.
  - intros Hin. now apply elem_of_nil in Hin.
Qed.

Lemma in_killer2Stage m :
  m ∈ move <$> killer2Stage ->
  m = killer2 /\ m <> ttMove /\ isTactical pos m = false /\ isLegal pos Me m = true.
Proof.
  unfold Stages.killer2Stage.
  destruct (negb (killer2 =? ttMove) && negb (isTactical pos killer2)
            && isLegal pos Me killer2) eqn:Hc; simpl.
  - intros Hin. apply list_elem_of_singleton in Hin. subst m.
    apply andb_true_iff in Hc as [Hc Hl]. apply andb_true_iff in Hc as [Ht Hq].
    apply negb_true_iff in Ht, Hq. apply Z.eqb_neq in Ht. auto.
  - intros Hin. now apply elem_of_nil in Hin.
Qed.

Lemma in_counterStage m :
  m ∈ move <$> counterStage ->
  m = counter /\ m <> ttMove /\ isTactical pos m = false
  /\ m <> killer1 /\ m <> killer2.
Proof.
  unfold Stages.counterStage.
  destruct (negb (counter =? ttMove) && negb (isTactical pos counter)
            && negb (counter =? killer1) && negb (counter =? killer2)
            && isLegal pos Me counter) eqn:Hc; simpl.
  - intros Hin. apply list_elem_of_singleton in Hin. subst m.
    apply andb_true_iff in Hc as [Hc _]. apply andb_true_iff in Hc as [Hc H2].
    apply andb_true_iff in Hc as [Hc H1]. apply andb_true_iff in Hc as [Ht Hq].
    apply negb_true_iff in Ht, Hq, H1, H2.
    apply Z.eqb_neq in Ht, H1, H2. auto.
  - intros Hin. now apply elem_of_nil in Hin.
Qed.

Lemma in_keptQuiet m :
  m ∈ genMove <$> keptOf keepQuiet QUIET_MOVES ->
  m <> ttMove /\ m <> killer1 /\ m <> killer2 /\ m <> counter
  /\ m ∈ genMove <$> legalMoves pos Me QUIET_MOVES.
Proof.
  intros Hin. apply keptOf_keep in Hin as [Hk Hin]. unfold Stages.keepQuiet in Hk.
  apply andb_true_iff in Hk as [Ht Hr]. apply negb_true_iff in Ht, Hr.
  apply orb_false_iff in Hr as [Hr H3]. apply orb_false_iff in Hr as [H1 H2].
  apply Z.eqb_neq in Ht, H1, H2, H3. repeat split; auto.
Qed.

Lemma in_keptTactical m :
  m ∈ genMove <$> keptOf keepTactical TACTICAL_MOVES ->
  m <> ttMove /\ m ∈ genMove <$> legalMoves pos Me TACTICAL_MOVES.
Proof.
  intros Hin. apply keptOf_keep in Hin as [Hk Hin]. unfold Stages.keepTactical in Hk.
  apply andb_true_iff in Hk as [Ht _]. apply negb_true_iff, Z.eqb_neq in Ht.
  auto.
Qed.

Lemma in_keptEvasion m :
  m ∈ genMove <$> keptOf keepEvasion ALL_MOVES ->
  m <> ttMove /\ m ∈ genMove <$> legalMoves pos Me ALL_MOVES.
Proof.
  intros Hin. apply keptOf_keep in Hin as [Hk Hin]. unfold Stages.keepEvasion in Hk.
  apply negb_true_iff, Z.eqb_neq in Hk. auto.
Qed.

Lemma NoDup_keptOf keep T :
  NoDup (genMove <$> legalMoves pos Me T) -> NoDup (genMove <$> keptOf keep T).
Proof.
  unfold Stages.keptOf. induction (legalMoves pos Me T) as [|g l IH]; intros Hnd.
  - constructor.
  - rewrite fmap_cons in Hnd. apply NoDup_cons in Hnd as [Hnot Hnd].
    destruct (keep (genMove g)) eqn:Hk.
    + rewrite filter_cons_True by exact Hk. rewrite fmap_cons.
      apply NoDup_cons. split; [|now apply IH].
      intros Hin. apply Hnot.
      apply list_elem_of_fmap in Hin as (g' & Heq & Hg').
      apply list_elem_of_filter in Hg' as [_ Hg']. rewrite Heq.
      now apply list_elem_of_fmap_2.
    + rewrite filter_cons_False by congruence. now apply IH.
Qed.

Lemma NoDup_option_stage (b : bool) m :
  NoDup (move <$> (if b then [own m] else [])).
Proof. destruct b; simpl; [apply NoDup_singleton|apply NoDup_nil_2]. Qed.

(** *** No move twice *)

Section Contract.

(** What the picker expects from the position: the generator does not
    repeat a move, the tactical and the quiet moves are disjoint, the
    generated tactical moves are the ones [isTactical] recognises, and the
    sentinel is not a legal move. The killers differ unless the first is
    the sentinel (the assertion of the constructor). *)
Hypothesis gen_all_nodup : NoDup (genMove <$> legalMoves pos Me ALL_MOVES).
Hypothesis gen_split_nodup :
  NoDup ((genMove <$> legalMoves pos Me TACTICAL_MOVES)
         ++ (genMove <$> legalMoves pos Me QUIET_MOVES)).
Hypothesis gen_tactical :
  forall m, m ∈ genMove <$> legalMoves pos Me TACTICAL_MOVES ->
            isTactical pos m = true.
Hypothesis none_illegal : isLegal pos Me MOVE_NONE = false.
Hypothesis killers_differ : killer1 <> killer2 \/ killer1 = MOVE_NONE.

Lemma NoDup_kept : NoDup kept.
Proof.
  unfold Stages.kept.
  apply NoDup_app in gen_split_nodup as (HndT & Hdisj & HndQ).
  apply NoDup_app. split; [apply NoDup_option_stage|]. split.
  { intros m Htt%in_ttStage Hin. destruct Htt as [-> _].
    destruct (inCheck pos).
    - apply in_keptEvasion in Hin as [Hne _]. now apply Hne.
    - apply elem_of_app in Hin as [Hin|Hin].
      + apply in_keptTactical in Hin as [Hne _]. now apply Hne.
      + destruct Ty eqn:HTy; [|now apply elem_of_nil in Hin].
        try rewrite <- HTy in *. clear HTy.
        rewrite !elem_of_app in Hin.
        destruct Hin as [Hin|[Hin|[Hin|Hin]]].
        * apply in_killer1Stage in Hin as (_ & Hne & _). now apply Hne.
        * apply in_killer2Stage in Hin as (_ & Hne & _). now apply Hne.
        * apply in_counterStage in Hin as (_ & Hne & _). now apply Hne.
        * apply in_keptQuiet in Hin as (Hne & _). now apply Hne. }
  destruct (inCheck pos); [now apply NoDup_keptOf|].
  apply NoDup_app. split; [now apply NoDup_keptOf|]. split.
  { intros m Hin Hin'. apply in_keptTactical in Hin as [_ Hgen].
    destruct Ty eqn:HTy; [|now apply elem_of_nil in Hin'].
    try rewrite <- HTy in *. clear HTy.
    pose proof (gen_tactical m Hgen) as Htac.
    rewrite !elem_of_app in Hin'.
    destruct Hin' as [Hin'|[Hin'|[Hin'|Hin']]].
    - apply in_killer1Stage in Hin' as (_ & _ & Hq & _). congruence.
    - apply in_killer2Stage in Hin' as (_ & _ & Hq & _). congruence.
    - apply in_counterStage in Hin' as (_ & _ & Hq & _). congruence.
    - apply in_keptQuiet in Hin' as (_ & _ & _ & _ & Hq).
      exact (Hdisj m Hgen Hq). }
  destruct Ty eqn:HTy; [|apply NoDup_nil_2].
  try rewrite <- HTy in *. clear HTy.
  apply NoDup_app. split; [apply NoDup_option_stage|]. split.
  { intros m Hin Hin'. apply in_killer1Stage in Hin as (-> & _ & _ & Hl).
    rewrite !elem_of_app in Hin'. destruct Hin' as [Hin'|[Hin'|Hin']].
    - apply in_killer2Stage in Hin' as (Heq & _).
      destruct killers_differ as [Hne|Hnone]; [now apply Hne|].
      rewrite Hnone in Hl. congruence.
    - apply in_counterStage in Hin' as (Heq & _ & _ & Hne & _).
      now apply Hne.
    - apply in_keptQuiet in Hin' as (_ & Hne & _). now apply Hne. }
  apply NoDup_app. split; [apply NoDup_option_stage|]. split.
  { intros m Hin Hin'. apply in_killer2Stage in Hin as (-> & _).
    rewrite !elem_of_app in Hin'. destruct Hin' as [Hin'|Hin'].
    - apply in_counterStage in Hin' as (Heq & _ & _ & _ & Hne).
      now apply Hne.
    - apply in_keptQuiet in Hin' as (_ & _ & Hne & _). now apply Hne. }
  apply NoDup_app. split; [apply NoDup_option_stage|]. split.
  { intros m Hin Hin'. apply in_counterStage in Hin as (-> & _).
    apply in_keptQuiet in Hin' as (_ & _ & _ & Hne & _). now apply Hne. }
  now apply NoDup_keptOf.
Qed.

Lemma NoDup_staged : NoDup (move <$> staged).
Proof.
  rewrite staged_perm. apply NoDup_kept.
Qed.

End Contract.

End Staged.

(** C1: when the generator repeats no move, tactical and quiet moves are
    disjoint, generated tactical moves are tactical for [isTactical], NONE
    is not legal, and the two killers differ unless the first is NONE, then
    in MAIN and in QUIESCENCE mode alike a call of [enumerate] passes no
    move to the handler twice, whatever the handler does and wherever it
    stops; in particular a full enumeration yields no move twice. *)
Theorem enumerate_yields_no_move_twice
    `{CH : ChessH} {SS : StdSort}
    (Ty : MovePickerType) (Me : Side) (pos : Position)
    (ttMove killer1 killer2 counter : Move) :
  NoDup (genMove <$> legalMoves pos Me ALL_MOVES) ->
  NoDup ((genMove <$> legalMoves pos Me TACTICAL_MOVES)
         ++ (genMove <$> legalMoves pos Me QUIET_MOVES)) ->
  (forall m, m ∈ genMove <$> legalMoves pos Me TACTICAL_MOVES ->
             isTactical pos m = true) ->
  isLegal pos Me MOVE_NONE = false ->
  killer1 <> killer2 \/ killer1 = MOVE_NONE ->
  (forall (S : Type) (handler : Handler S) (s : S),
      NoDup (enumerate Ty Me pos ttMove killer1 killer2 counter
                       (logged handler) (s, [])).2.2)
  /\ NoDup (yielded Ty Me pos ttMove killer1 killer2 counter).
Proof.
  intros Hall Hsplit Htac Hnone Hk.
  pose proof (NoDup_staged Ty Me pos ttMove killer1 killer2 counter
                Hall Hsplit Htac Hnone Hk) as Hnd.
  split.
  - intros S handler s.
    destruct (enumerate_log_prefix Ty Me pos ttMove killer1 killer2 counter
                handler s) as [rest Hrest].
    rewrite Hrest in Hnd. now apply NoDup_app in Hnd as [Hnd _].
  - now rewrite yielded_staged.
Qed.

Lemma fmap_keptOf `{CH : ChessH} (Me : Side) (pos : Position)
    (keep : Move -> bool) (T : MoveGenType) :
  genMove <$> keptOf Me pos keep T
  = filter (fun m => keep m = true) (genMove <$> legalMoves pos Me T).
Proof.
  unfold keptOf. induction (legalMoves pos Me T) as [|g l IH]; [reflexivity|].
  rewrite fmap_cons. destruct (keep (genMove g)) eqn:Hk.
  - rewrite !filter_cons_True by exact Hk. now rewrite fmap_cons, IH.
  - rewrite !filter_cons_False by congruence. exact IH.
Qed.

(** C8: in QUIESCENCE mode a full enumeration yields, up to order and
    with the same multiplicities, the TT move if it is legal, then, in
    check, the generated legal moves other than the TT move, and, out of
    check, the generated tactical moves other than the TT move that pass
    [see(move, 0)]; the killers and the counter move play no part. When
    generated moves are legal for [isLegal], the moves yielded are exactly
    the legal TT move, every legal move in check, and every tactical move
    passing [see(move, 0)] out of check. *)
Theorem quiescence_yields
    `{CH : ChessH} {SS : StdSort}
    (Me : Side) (pos : Position) (ttMove killer1 killer2 counter : Move) :
  (forall m, m ∈ genMove <$> legalMoves pos Me ALL_MOVES ->
             isLegal pos Me m = true) ->
  (forall m, m ∈ genMove <$> legalMoves pos Me TACTICAL_MOVES ->
             isLegal pos Me m = true) ->
  yielded QUIESCENCE Me pos ttMove killer1 killer2 counter
  ≡ₚ (if isLegal pos Me ttMove then [ttMove] else [])
     ++ (if inCheck pos
         then filter (fun m => m <> ttMove)
                     (genMove <$> legalMoves pos Me ALL_MOVES)
         else filter (fun m => m <> ttMove /\ see pos m 0 = true)
                     (genMove <$> legalMoves pos Me TACTICAL_MOVES))
  /\ (forall m,
        m ∈ yielded QUIESCENCE Me pos ttMove killer1 killer2 counter <->
        (m = ttMove /\ isLegal pos Me ttMove = true)
        \/ (inCheck pos = true /\ m ∈ genMove <$> legalMoves pos Me ALL_MOVES)
        \/ (inCheck pos = false
            /\ m ∈ genMove <$> legalMoves pos Me TACTICAL_MOVES
            /\ see pos m 0 = true)).
Proof.
  intros Hall Htac.
  assert (Hperm :
    yielded QUIESCENCE Me pos ttMove killer1 killer2 counter
    ≡ₚ (if isLegal pos Me ttMove then [ttMove] else [])
       ++ (if inCheck pos
           then filter (fun m => m <> ttMove)
                       (genMove <$> legalMoves pos Me ALL_MOVES)
           else filter (fun m => m <> ttMove /\ see pos m 0 = true)
                       (genMove <$> legalMoves pos Me TACTICAL_MOVES))).
  { rewrite yielded_staged, staged_perm. unfold kept.
    apply Permutation_app.
    - unfold ttStage. now destruct (isLegal pos Me ttMove).
    - destruct (inCheck pos).
      + rewrite fmap_keptOf. erewrite list_filter_iff; [reflexivity|].
        intros m. unfold keepEvasion.
        now rewrite negb_true_iff, Z.eqb_neq.
      + rewrite app_nil_r, fmap_keptOf.
        erewrite list_filter_iff; [reflexivity|].
        intros m. unfold keepTactical.
        now rewrite andb_true_iff, negb_true_iff, Z.eqb_neq. }
  split; [exact Hperm|].
  intros m. rewrite Hperm, elem_of_app. split.
  - intros [Hin|Hin].
    + left. destruct (isLegal pos Me ttMove); [|now apply elem_of_nil in Hin].
      apply list_elem_of_singleton in Hin. auto.
    + right. destruct (inCheck pos).
      * left. apply list_elem_of_filter in Hin as [_ Hin]. auto.
      * right. apply list_elem_of_filter in Hin as [[_ Hsee] Hin]. auto.
  - intros [[-> Hl]|[[Hc Hin]|(Hc & Hin & Hsee)]].
    + left. rewrite Hl. apply list_elem_of_here.
    + rewrite Hc. destruct (decide (m = ttMove)) as [->|Hne].
      * left. rewrite (Hall _ Hin). apply list_elem_of_here.
      * right. now apply list_elem_of_filter.
    + rewrite Hc. destruct (decide (m = ttMove)) as [->|Hne].
      * left. rewrite (Htac _ Hin). apply list_elem_of_here.
      * right. now apply list_elem_of_filter.
Qed.

(** ** Concrete positions *)

Import Cases Ref.

Lemma posA_gen_all_nodup :
  NoDup (genMove <$> legalMoves posA WHITE ALL_MOVES).
Proof. apply (bool_decide_unpack _). vm_compute. exact I. Qed.

Lemma posA_gen_split_nodup :
  NoDup ((genMove <$> legalMoves posA WHITE TACTICAL_MOVES)
         ++ (genMove <$> legalMoves posA WHITE QUIET_MOVES)).
Proof. apply (bool_decide_unpack _). vm_compute. exact I. Qed.

Lemma posA_gen_tactical m :
  m ∈ genMove <$> legalMoves posA WHITE TACTICAL_MOVES ->
  isTactical posA m = true.
Proof. intros Hin. apply list_elem_of_singleton in Hin. now subst m. Qed.

Lemma posA_gen_legal T m :
  m ∈ genMove <$> legalMoves posA WHITE T -> isLegal posA WHITE m = true.
Proof.
  intros Hin. apply list_elem_of_In in Hin.
  destruct T; vm_compute in Hin;
    repeat (destruct Hin as [<-|Hin]; [reflexivity|]); destruct Hin.
Qed.

(** C1 on position A, with a quiet TT move, two quiet killers and a
    quiet counter move, all of them legal. *)
Lemma enumerate_yields_no_move_twice_witness :
  (forall (S : Type) (handler : Handler S) (s : S),
      NoDup (enumerate (SS := mergeSort) MAIN WHITE posA Kg1 Nb3 Kh2 Kg2
                       (logged handler) (s, [])).2.2)
  /\ NoDup (yielded (SS := mergeSort) MAIN WHITE posA Kg1 Nb3 Kh2 Kg2).
Proof.
  apply (enumerate_yields_no_move_twice (SS := mergeSort)
           MAIN WHITE posA Kg1 Nb3 Kh2 Kg2).
  - exact posA_gen_all_nodup.
  - exact posA_gen_split_nodup.
  - exact posA_gen_tactical.
  - reflexivity.
  - left. discriminate.
Defined.

(** C8 on position A, with the losing capture as TT move. *)
Lemma quiescence_yields_witness :
  yielded (SS := mergeSort) QUIESCENCE WHITE posA Nxc2 Nb3 Kh2 Kg2
  ≡ₚ (if isLegal posA WHITE Nxc2 then [Nxc2] else [])
     ++ (if inCheck posA
         then filter (fun m => m <> Nxc2)
                     (genMove <$> legalMoves posA WHITE ALL_MOVES)
         else filter (fun m => m <> Nxc2 /\ see posA m 0 = true)
                     (genMove <$> legalMoves posA WHITE TACTICAL_MOVES))
  /\ (forall m,
        m ∈ yielded (SS := mergeSort) QUIESCENCE WHITE posA Nxc2 Nb3 Kh2 Kg2 <->
        (m = Nxc2 /\ isLegal posA WHITE Nxc2 = true)
        \/ (inCheck posA = true /\ m ∈ genMove <$> legalMoves posA WHITE ALL_MOVES)
        \/ (inCheck posA = false
            /\ m ∈ genMove <$> legalMoves posA WHITE TACTICAL_MOVES
            /\ see posA m 0 = true)).
Proof.
  apply (quiescence_yields (SS := mergeSort) WHITE posA Nxc2 Nb3 Kh2 Kg2).
  - exact (posA_gen_legal ALL_MOVES).
  - exact (posA_gen_legal TACTICAL_MOVES).
Defined.

(** *** The whole-array sort on position A *)

(** In a sorted permutation of [x :: l] where [x] outscores all of [l],
    [x] comes first. *)
Lemma sorted_head `{CH : ChessH} (L l : list ScoredMove) (x : ScoredMove) :
  StronglySorted (fun a b => score b <= score a) L ->
  L ≡ₚ x :: l ->
  Forall (fun y => score y < score x) l ->
  exists L', L = x :: L'
             /\ L' ≡ₚ l
             /\ StronglySorted (fun a b => score b <= score a) L'.
Proof.
  intros Hs Hp Hmax. destruct L as [|a L'].
  - now apply Permutation_nil_cons in Hp.
  - apply StronglySorted_inv in Hs as [Hs' Hall].
    assert (Ha : a = x).
    { assert (Hain : a ∈ x :: l) by (rewrite <- Hp; apply list_elem_of_here).
      apply elem_of_cons in Hain as [Heq|Hain]; [exact Heq|].
      assert (Hxin : x ∈ a :: L') by (rewrite Hp; apply list_elem_of_here).
      apply elem_of_cons in Hxin as [Heq|Hxin]; [now symmetry|].
      rewrite Forall_forall in Hall, Hmax.
      specialize (Hall x Hxin). specialize (Hmax a Hain). lia. }
    subst a. exists L'. split; [reflexivity|]. split; [|exact Hs'].
    now apply Permutation_cons_inv in Hp.
Qed.

Section PositionA.

Context {SS : StdSort}.

Lemma posA_tacticals : tacticals MAIN WHITE posA MOVE_NONE = [sm Nxc2 98].
Proof. unfold tacticals. apply Permutation_singleton_r, std_sort_perm. Qed.

Lemma posA_badTacticals : badTacticals MAIN WHITE posA MOVE_NONE = [sm Nxc2 98].
Proof. unfold badTacticals. rewrite posA_tacticals. reflexivity. Qed.

Lemma posA_goodTacticals : goodTacticals MAIN WHITE posA MOVE_NONE = [].
Proof. unfold goodTacticals. rewrite posA_tacticals. reflexivity. Qed.

Lemma posA_quietMoves :
  quietMoves WHITE posA MOVE_NONE MOVE_NONE MOVE_NONE MOVE_NONE
  = [sm Kg1 1; sm Kg2 1; sm Kh2 1; sm Nb3 305].
Proof. reflexivity. Qed.

(** Whatever the sort does with equal scores, the escaping knight move
    comes first in the array and the deferred capture second. *)
Lemma posA_sortedTail :
  exists rest,
    sortedTail MAIN WHITE posA MOVE_NONE MOVE_NONE MOVE_NONE MOVE_NONE
    = sm Nb3 305 :: sm Nxc2 98 :: rest
    /\ rest ≡ₚ [sm Kg1 1; sm Kg2 1; sm Kh2 1].
Proof.
  unfold sortedTail. rewrite posA_badTacticals, posA_quietMoves.
  set (l0 := [sm Nxc2 98] ++ _).
  destruct (sorted_head (std_sort l0)
              [sm Nxc2 98; sm Kg1 1; sm Kg2 1; sm Kh2 1]
              (sm Nb3 305)) as (L1 & -> & Hp1 & Hs1).
  - apply std_sort_sorted.
  - rewrite (std_sort_perm l0). subst l0. symmetry.
    exact (Permutation_middle
             [sm Nxc2 98; sm Kg1 1; sm Kg2 1; sm Kh2 1] [] (sm Nb3 305)).
  - repeat constructor.
  - destruct (sorted_head L1 [sm Kg1 1; sm Kg2 1; sm Kh2 1] (sm Nxc2 98))
      as (L2 & -> & Hp2 & _).
    + exact Hs1.
    + exact Hp1.
    + repeat constructor.
    + exists L2. auto.
Qed.

End PositionA.

Lemma filter_none {A} (f : A -> bool) (l : list A) :
  Forall (fun y => f y = false) l -> filter (fun y => f y = true) l = [].
Proof.
  induction 1 as [|x l Hx _ IH]; [reflexivity|].
  rewrite filter_cons_False by congruence. exact IH.
Qed.

Lemma posA_rest_scores (rest : list ScoredMove) :
  rest ≡ₚ [sm Kg1 1; sm Kg2 1; sm Kh2 1] ->
  Forall (fun y => deferQuiet y = false) rest.
Proof.
  intros Hp. apply Forall_forall. intros y Hy. rewrite Hp in Hy.
  apply list_elem_of_In in Hy. simpl in Hy.
  repeat (destruct Hy as [<-|Hy]; [reflexivity|]). destruct Hy.
Qed.

(** C2 on position A, for every sort that [std::sort] may be. The only
    tactical move, the capture on c2, fails [see(move, -50)] and is
    deferred; all four quiet moves score at least 0, the knight's escape to
    b3 highest. The good-quiets loop yields the deferred capture first and
    never the move to b3; the bad-tacticals loop yields the quiet move to
    b3; so the full enumeration starts with the deferred capture and ends
    with the best quiet move. *)
Theorem main_sort_mixes_deferred_captures_with_quiets (SS : StdSort) :
  genMove <$> legalMoves posA WHITE TACTICAL_MOVES = [Nxc2]
  /\ see posA Nxc2 (-50) = false
  /\ ((fun m => (m, scoreQuiet WHITE posA (threatened WHITE posA) m))
        <$> (genMove <$> legalMoves posA WHITE QUIET_MOVES))
     = [(Kg1, 1); (Kg2, 1); (Kh2, 1); (Nb3, 305)]
  /\ move <$> badTacticals MAIN WHITE posA MOVE_NONE = [Nxc2]
  /\ (exists rest,
        move <$> goodQuietsYield MAIN WHITE posA
                   MOVE_NONE MOVE_NONE MOVE_NONE MOVE_NONE = Nxc2 :: rest
        /\ rest ≡ₚ [Kg1; Kg2; Kh2]
        /\ move <$> badTacticalsYield MAIN WHITE posA
                      MOVE_NONE MOVE_NONE MOVE_NONE MOVE_NONE = [Nb3]
        /\ yielded MAIN WHITE posA MOVE_NONE MOVE_NONE MOVE_NONE MOVE_NONE
           = Nxc2 :: rest ++ [Nb3]).
Proof.
  split; [reflexivity|]. split; [reflexivity|].
  split; [vm_compute; reflexivity|].
  split; [now rewrite posA_badTacticals|].
  destruct posA_sortedTail as (rest & Hsorted & Hrest).
  pose proof (posA_rest_scores rest Hrest) as Hscores.
  assert (Hgood : goodQuietsYield MAIN WHITE posA
                    MOVE_NONE MOVE_NONE MOVE_NONE MOVE_NONE
                  = sm Nxc2 98 :: rest).
  { unfold goodQuietsYield. rewrite Hsorted, posA_badTacticals. simpl.
    rewrite filter_cons_True by reflexivity.
    now rewrite filter_all by exact Hscores. }
  assert (Hbad : badTacticalsYield MAIN WHITE posA
                   MOVE_NONE MOVE_NONE MOVE_NONE MOVE_NONE
                 = [sm Nb3 305]).
  { unfold badTacticalsYield. now rewrite Hsorted, posA_badTacticals. }
  assert (HbadQ : badQuietsYield MAIN WHITE posA
                    MOVE_NONE MOVE_NONE MOVE_NONE MOVE_NONE = []).
  { unfold badQuietsYield. rewrite Hsorted, posA_badTacticals. simpl.
    rewrite filter_cons_False by discriminate.
    now apply filter_none. }
  exists (move <$> rest). split; [now rewrite Hgood|].
  split; [now rewrite Hrest|]. split; [now rewrite Hbad|].
  rewrite yielded_staged. unfold staged.
  rewrite posA_goodTacticals, Hgood, Hbad, HbadQ.
  change (ttStage WHITE posA MOVE_NONE) with (@nil ScoredMove).
  change (inCheck posA) with false.
  change (killer1Stage WHITE posA MOVE_NONE MOVE_NONE) with (@nil ScoredMove).
  change (killer2Stage WHITE posA MOVE_NONE MOVE_NONE) with (@nil ScoredMove).
  change (counterStage WHITE posA MOVE_NONE MOVE_NONE MOVE_NONE MOVE_NONE)
    with (@nil ScoredMove).
  simpl. rewrite fmap_app. reflexivity.
Qed.

(** *** The check bonus *)

Lemma scoreQuiet_bonus `{CH : ChessH} (Me : Side) (pos : Position)
    (threatenedPieces : Bitboard) (m : Move) :
  moveType m <> PROMOTION ->
  scoreQuiet Me pos threatenedPieces m
  = int16 (NB_PIECE_TYPE
           - pieceTypeInt (pieceType (getPieceAt pos (moveFrom m)))
           + (if onSquare threatenedPieces (moveFrom m)
              then escapeBonus pos (pieceType (getPieceAt pos (moveFrom m)))
                               (moveTo m)
              else 0)
           + checkBonus Me pos (pieceType (getPieceAt pos (moveFrom m)))
                        (moveTo m)).
Proof.
  intros Hnp. unfold scoreQuiet, checkBonus.
  destruct (moveType m); try contradiction; f_equal;
    destruct (onSquare threatenedPieces (moveFrom m));
    destruct (pieceType (getPieceAt pos (moveFrom m)));
    unfold caseBishop, caseRook, caseQueen, caseKnight, casePawn;
    repeat match goal with
           | |- context [if ?c then _ else _] => destruct c
           end; lia.
Qed.

(** C7 on two moves. The rook going from a4 to a1 does not attack the
    king on h8, yet its score carries the +10: the ROOK arm runs on into
    the QUEEN arm, and a queen on a1 would give check along the diagonal.
    The bishop going from f1 to b5 gives check and receives +20. *)
Theorem scoreQuiet_check_bonus_falls_through :
  (moveType Ra1 = NORMAL
   /\ pieceType (getPieceAt posB (moveFrom Ra1)) = ROOK
   /\ onSquare (threatened WHITE posB) (moveFrom Ra1) = false
   /\ hitsKing WHITE posB ROOK (moveTo Ra1) = false
   /\ scoreQuiet WHITE posB (threatened WHITE posB) Ra1
      = NB_PIECE_TYPE - pieceTypeInt ROOK + 10)
  /\ (moveType Bb5 = NORMAL
      /\ pieceType (getPieceAt posC (moveFrom Bb5)) = BISHOP
      /\ onSquare (threatened WHITE posC) (moveFrom Bb5) = false
      /\ hitsKing WHITE posC BISHOP (moveTo Bb5) = true
      /\ scoreQuiet WHITE posC (threatened WHITE posC) Bb5
         = NB_PIECE_TYPE - pieceTypeInt BISHOP + 20).
Proof. vm_compute. repeat split; reflexivity. Qed.

End MovePickerProofs.

(** ** More on the search state *)

Module EngineExtras.

Import Engine EngineTables Runs Cases TableCases.

Section Killers.

Context `{CH : ChessH}.

Lemma clearKillers_in_range ply sd :
  0 <= ply -> (Z.to_nat ply < length (killerMoves sd))%nat ->
  clearKillers ply sd
  = Some (setKillers sd (<[Z.to_nat ply := (MOVE_NONE, MOVE_NONE)]> (killerMoves sd))).
Proof.
  intros Hply Hlt. unfold clearKillers.
  destruct (Z.ltb_spec ply 0) as [?|_]; [lia|].
  destruct (lookup_lt_is_Some_2 _ _ Hlt) as [row ->]. reflexivity.
Qed.

Lemma updateKillers_in_range m ply sd k0 k1 :
  0 <= ply -> killerMoves sd !! Z.to_nat ply = Some (k0, k1) ->
  updateKillers m ply sd
  = Some (if k0 =? m then sd
          else setKillers sd (<[Z.to_nat ply := (m, k0)]> (killerMoves sd))).
Proof.
  intros Hply Hrow. unfold updateKillers.
  destruct (Z.ltb_spec ply 0) as [?|_]; [lia|].
  rewrite Hrow. now destruct (k0 =? m).
Qed.

(** One operation at an in-range ply keeps the size of the table and the
    distinctness of every row. *)
Lemma applyOp_keeps (n : nat) op sd :
  length (killerMoves sd) = n ->
  Forall killersDistinct (killerMoves sd) ->
  0 <= opPly op < Z.of_nat n ->
  exists sd', applyOp op sd = Some sd'
              /\ length (killerMoves sd') = n
              /\ Forall killersDistinct (killerMoves sd').
Proof.
  intros Hlen Hinv Hply.
  assert (Hlt : (Z.to_nat (opPly op) < length (killerMoves sd))%nat) by lia.
  destruct op as [ply|m ply]; simpl in *.
  - rewrite clearKillers_in_range by lia. eexists. split; [reflexivity|].
    simpl. rewrite length_insert. split; [exact Hlen|].
    apply Forall_insert; [exact Hinv|].
    intros Hne. simpl in Hne. now contradiction Hne.
  - destruct (lookup_lt_is_Some_2 _ _ Hlt) as [[k0 k1] Hrow].
    rewrite (updateKillers_in_range m ply sd k0 k1) by (lia || exact Hrow).
    eexists. split; [reflexivity|].
    destruct (Z.eqb_spec k0 m) as [->|Hne]; [auto|].
    simpl. rewrite length_insert. split; [exact Hlen|].
    apply Forall_insert; [exact Hinv|].
    intros _ _ Heq. simpl in Heq. congruence.
Qed.

(** X1: Every killer table that a search can reach is well formed: starting
    from the table of the constructor, when [MOVE_NONE] is the move of
    value 0, any sequence of [clearKillers] and [updateKillers] at plies
    below [MAX_PLY] succeeds, keeps [MAX_PLY] rows, and leaves every row
    with two distinct moves unless one of them is NONE. *)
Theorem killers_distinct_in_every_reachable_table
    (MAX_PLY : nat) (ops : list KillerOp) (sd : SearchData) :
  MOVE_NONE = 0 ->
  killerMoves sd = initialKillers MAX_PLY ->
  Forall (fun op => 0 <= opPly op < Z.of_nat MAX_PLY) ops ->
  exists sd',
    runOps ops sd = Some sd'
    /\ length (killerMoves sd') = MAX_PLY
    /\ Forall killersDistinct (killerMoves sd').
Proof.
  intros Hnone Hinit Hops.
  assert (Hlen : length (killerMoves sd) = MAX_PLY).
  { rewrite Hinit. destruct MAX_PLY; simpl; [reflexivity|].
    now rewrite length_replicate. }
  assert (Hinv : Forall killersDistinct (killerMoves sd)).
  { rewrite Hinit.
    assert (Hzero : killersDistinct (0, 0)).
    { intros Hne. simpl in Hne. congruence. }
    destruct MAX_PLY; simpl; constructor.
    - intros Hne. simpl in Hne. now contradiction Hne.
    - now apply Forall_replicate. }
  clear Hinit. revert sd Hlen Hinv.
  induction Hops as [|op ops Hop _ IH]; intros sd Hlen Hinv; simpl.
  - eauto.
  - destruct (applyOp_keeps MAX_PLY op sd Hlen Hinv Hop) as (sd1 & -> & Hl1 & Hi1).
    now apply IH.
Qed.

(** X2: Two updates in a row at one ply: with the same move the second changes
    nothing; with two different moves the row ends as (second, first),
    whatever it held before. *)
Theorem updateKillers_twice
    (m1 m2 : Move) (ply : Z) (sd : SearchData) (k0 k1 : Move) :
  0 <= ply ->
  killerMoves sd !! Z.to_nat ply = Some (k0, k1) ->
  exists sd1 sd2,
    updateKillers m1 ply sd = Some sd1
    /\ updateKillers m2 ply sd1 = Some sd2
    /\ (m2 = m1 -> sd2 = sd1)
    /\ (m2 <> m1 -> killerMoves sd2 !! Z.to_nat ply = Some (m2, m1)).
Proof.
  intros Hply Hrow.
  pose proof (lookup_lt_Some _ _ _ Hrow) as Hlt.
  rewrite (updateKillers_in_range m1 ply sd k0 k1 Hply Hrow).
  destruct (Z.eqb_spec k0 m1) as [->|Hne].
  - exists sd.
    rewrite (updateKillers_in_range m2 ply sd m1 k1 Hply Hrow).
    eexists. split; [reflexivity|]. split; [reflexivity|]. split.
    + intros ->. now rewrite Z.eqb_refl.
    + intros Hne. destruct (Z.eqb_spec m1 m2) as [?|_]; [congruence|].
      simpl. now apply list_lookup_insert_eq.
  - exists (setKillers sd (<[Z.to_nat ply := (m1, k0)]> (killerMoves sd))).
    assert (Hrow1 : killerMoves (setKillers sd (<[Z.to_nat ply := (m1, k0)]>
                                                  (killerMoves sd)))
                    !! Z.to_nat ply = Some (m1, k0)).
    { simpl. now apply list_lookup_insert_eq. }
    rewrite (updateKillers_in_range m2 ply _ m1 k0 Hply Hrow1).
    eexists. split; [reflexivity|]. split; [reflexivity|]. split.
    + intros ->. now rewrite Z.eqb_refl.
    + intros Hne'. destruct (Z.eqb_spec m1 m2) as [?|_]; [congruence|].
      simpl. apply list_lookup_insert_eq. now rewrite length_insert.
Qed.

Section Counters.

Variable pieceIndex : Piece -> nat.

(** At the root ([previousMove() == MOVE_NONE]) [updateCounter] writes
    nothing and [getCounter] answers NONE. *)
Lemma counter_at_root m position counterMoves :
  previousMove position = MOVE_NONE ->
  updateCounter pieceIndex m position counterMoves = Some counterMoves
  /\ getCounter pieceIndex position counterMoves = Some MOVE_NONE.
Proof.
  intros Hroot. unfold updateCounter, getCounter.
  rewrite Hroot, Z.eqb_refl. auto.
Qed.

(** X3: The counter move stored after the opponent's move is the one read
    back: away from the root and within the table, [updateCounter m]
    succeeds, [getCounter] then answers [m], and the answer for every other
    (piece, square) pair is what it was. *)
Theorem counter_update_then_get
    (m : Move) (position : PositionView) (counterMoves : list (list Move))
    (row : list Move) (old : Move) :
  previousMove position <> MOVE_NONE ->
  0 <= moveTo (previousMove position) ->
  counterMoves !! pieceIndex (getPieceAt position (moveTo (previousMove position)))
  = Some row ->
  row !! Z.to_nat (moveTo (previousMove position)) = Some old ->
  exists counterMoves',
    updateCounter pieceIndex m position counterMoves = Some counterMoves'
    /\ getCounter pieceIndex position counterMoves' = Some m
    /\ (forall position',
          (pieceIndex (getPieceAt position' (moveTo (previousMove position'))),
           moveTo (previousMove position'))
          <> (pieceIndex (getPieceAt position (moveTo (previousMove position))),
              moveTo (previousMove position)) ->
          getCounter pieceIndex position' counterMoves'
          = getCounter pieceIndex position' counterMoves).
Proof.
  intros Hprev Hto Hrow Hold.
  pose proof (lookup_lt_Some _ _ _ Hrow) as Hlt.
  pose proof (lookup_lt_Some _ _ _ Hold) as Hlt'.
  apply Z.eqb_neq in Hprev.
  unfold updateCounter. rewrite Hprev. simpl.
  destruct (Z.ltb_spec (moveTo (previousMove position)) 0) as [?|_]; [lia|].
  rewrite Hrow, Hold. eexists. split; [reflexivity|]. split.
  - unfold getCounter. rewrite Hprev.
    destruct (Z.ltb_spec (moveTo (previousMove position)) 0) as [?|_]; [lia|].
    rewrite list_lookup_insert_eq by exact Hlt.
    now apply list_lookup_insert_eq.
  - intros position' Hkey. unfold getCounter.
    destruct (previousMove position' =? MOVE_NONE); [reflexivity|].
    destruct (Z.ltb_spec (moveTo (previousMove position')) 0) as [?|Hto'];
      [reflexivity|].
    destruct (decide (pieceIndex (getPieceAt position
                                   (moveTo (previousMove position)))
                      = pieceIndex (getPieceAt position'
                                      (moveTo (previousMove position')))))
      as [Heq|Hne].
    + rewrite <- Heq, list_lookup_insert_eq by exact Hlt. rewrite Hrow.
      apply list_lookup_insert_ne. intros Hsame.
      apply Hkey. rewrite <- Heq. f_equal. lia.
    + now rewrite list_lookup_insert_ne by exact Hne.
Qed.

End Counters.

End Killers.

(** *** The budget check *)

(** X4: Once the budget check answers stop, it answers stop at every later
    clock reading, the node count being the same. *)
Theorem shouldStop_monotone_in_time (now now' : TimeMs) (sd : SearchData) :
  now <= now' ->
  shouldStop now sd = true ->
  shouldStop now' sd = true.
Proof.
  intros Hle. unfold shouldStop.
  destruct (negb (nbNodes sd mod 1024 =? 0)); [discriminate|].
  destruct (useTournamentTime sd); simpl.
  - destruct (Z.leb_spec (allocatedTime sd) (now - startTime sd)) as [H1|H1].
    + intros _. destruct (Z.leb_spec (allocatedTime sd) (now' - startTime sd));
        [reflexivity|lia].
    + destruct (Z.leb_spec (allocatedTime sd) (now' - startTime sd));
        [reflexivity|].
      destruct (useFixedTime sd); simpl.
      * destruct (Z.ltb_spec (maxTime (limits sd)) (now - startTime sd)).
        -- intros _.
           destruct (Z.ltb_spec (maxTime (limits sd)) (now' - startTime sd));
             [reflexivity|lia].
        -- destruct (Z.ltb_spec (maxTime (limits sd)) (now' - startTime sd));
             [reflexivity|]. auto.
      * auto.
  - destruct (useFixedTime sd); simpl.
    + destruct (Z.ltb_spec (maxTime (limits sd)) (now - startTime sd)).
      * intros _.
        destruct (Z.ltb_spec (maxTime (limits sd)) (now' - startTime sd));
          [reflexivity|lia].
      * destruct (Z.ltb_spec (maxTime (limits sd)) (now' - startTime sd));
          [reflexivity|]. auto.
    + auto.
Qed.

(** X5: With a node limit of at most [2^64 - 1024], the least multiple of
    1024 that reaches [maxNodes] lies less than 1024 above the limit and
    inside the range of [size_t]. At that node count the budget check
    answers stop at every clock reading, whatever the time limits are; at
    every smaller node count, when no clock and no fixed time is set, it
    answers go on. *)
Theorem shouldStop_first_fires_within_1024_of_node_limit (sd : SearchData) :
  0 < maxNodes (limits sd) <= 2 ^ 64 - 1024 ->
  exists n : Z,
    maxNodes (limits sd) <= n < maxNodes (limits sd) + 1024
    /\ 0 <= n < 2 ^ 64
    /\ (forall (now : TimeMs) (sd' : SearchData),
          limits sd' = limits sd -> nbNodes sd' = n ->
          shouldStop now sd' = true)
    /\ (forall (now : TimeMs) (sd' : SearchData),
          limits sd' = limits sd ->
          (forall c, timeLeft (limits sd) c = 0) ->
          maxTime (limits sd) = 0 ->
          0 <= nbNodes sd' < n ->
          shouldStop now sd' = false).
Proof.
  intros Hmax.
  exists (1024 * ((maxNodes (limits sd) + 1023) / 1024)).
  pose proof (Z.div_mod (maxNodes (limits sd) + 1023) 1024) as Hdm.
  pose proof (Z.mod_pos_bound (maxNodes (limits sd) + 1023) 1024) as Hb.
  split; [lia|]. split; [lia|]. split.
  - intros now sd' Hlim Hn. unfold shouldStop, useNodeCountLimit.
    rewrite Hn, Hlim.
    replace (1024 * ((maxNodes (limits sd) + 1023) / 1024) mod 1024) with 0
      by (rewrite Z.mul_comm; symmetry; apply Z_mod_mult).
    simpl.
    destruct (useTournamentTime sd' && _); [reflexivity|].
    destruct (useFixedTime sd' && _); [reflexivity|].
    destruct (Z.ltb_spec 0 (maxNodes (limits sd))); [|lia].
    destruct (Z.leb_spec (maxNodes (limits sd))
                (1024 * ((maxNodes (limits sd) + 1023) / 1024)));
      [reflexivity|lia].
  - intros now sd' Hlim Hclock Ht Hn.
    unfold shouldStop, useTournamentTime, useFixedTime, useNodeCountLimit.
    rewrite Hlim, (Hclock WHITE), Ht.
    destruct (Z.eqb_spec (nbNodes sd' mod 1024) 0) as [Hm|Hm]; simpl;
      [|reflexivity].
    pose proof (Z.div_mod (nbNodes sd') 1024) as Hdm'.
    destruct (Z.leb_spec (maxNodes (limits sd)) (nbNodes sd')) as [Hle|Hlt];
      [lia|]. now rewrite andb_false_r.
Qed.

(** *** Witnesses *)

Lemma killers_distinct_in_every_reachable_table_witness :
  exists sd',
    runOps [OpUpdate 903 1; OpUpdate 903 1; OpUpdate 967 1; OpClear 0;
            OpUpdate 391 2] tablesData = Some sd'
    /\ length (killerMoves sd') = 3%nat
    /\ Forall (killersDistinct (CH := Ref.refChess)) (killerMoves sd').
Proof.
  apply (killers_distinct_in_every_reachable_table (CH := Ref.refChess) 3).
  - reflexivity.
  - reflexivity.
  - repeat constructor; simpl; lia.
Defined.

Lemma updateKillers_twice_witness :
  exists sd1 sd2,
    updateKillers 903 1 tablesData = Some sd1
    /\ updateKillers 967 1 sd1 = Some sd2
    /\ (967 = 903 -> sd2 = sd1)
    /\ (967 <> 903 -> killerMoves sd2 !! Z.to_nat 1 = Some (967, 903)).
Proof.
  apply (updateKillers_twice 903 967 1 tablesData 0 0).
  - lia.
  - reflexivity.
Defined.

Lemma counter_update_then_get_witness :
  exists counterMoves',
    updateCounter pieceRow 640 afterNb3
      (initialCounters (CH := Ref.refChess) 16 64) = Some counterMoves'
    /\ getCounter pieceRow afterNb3 counterMoves' = Some 640
    /\ (forall position',
          (pieceRow (getPieceAt position' (moveTo (previousMove position'))),
           moveTo (previousMove position'))
          <> (pieceRow (getPieceAt afterNb3 (moveTo (previousMove afterNb3))),
              moveTo (previousMove afterNb3)) ->
          getCounter pieceRow position' counterMoves'
          = getCounter pieceRow position'
              (initialCounters (CH := Ref.refChess) 16 64)).
Proof.
  apply (counter_update_then_get (CH := Ref.refChess) pieceRow 640 afterNb3
           (initialCounters (CH := Ref.refChess) 16 64) (replicate 64 0) 0).
  - discriminate.
  - vm_compute. discriminate.
  - reflexivity.
  - reflexivity.
Defined.

Lemma shouldStop_monotone_in_time_witness :
  shouldStop 2000 (mkData fixedTimeLimits 1024 0 0 []) = true.
Proof.
  apply (shouldStop_monotone_in_time 1001 2000 (mkData fixedTimeLimits 1024 0 0 [])).
  - lia.
  - reflexivity.
Defined.

Lemma shouldStop_first_fires_within_1024_of_node_limit_witness :
  exists n : Z,
    10000 <= n < 10000 + 1024
    /\ 0 <= n < 2 ^ 64
    /\ (forall (now : TimeMs) (sd' : SearchData),
          limits sd' = nodeLimits -> nbNodes sd' = n ->
          shouldStop now sd' = true)
    /\ (forall (now : TimeMs) (sd' : SearchData),
          limits sd' = nodeLimits ->
          (forall c, timeLeft nodeLimits c = 0) ->
          maxTime nodeLimits = 0 ->
          0 <= nbNodes sd' < n ->
          shouldStop now sd' = false).
Proof.
  apply (shouldStop_first_fires_within_1024_of_node_limit
           (mkData nodeLimits 0 0 0 [])).
  simpl. lia.
Defined.

End EngineExtras.

(** ** More on perft *)

Module PerftExtras.

Import Perft PerftSpec Cases.

Lemma wrap64_range z : 0 <= wrap64 z < 2 ^ 64.
Proof. unfold wrap64. apply Z.mod_pos_bound. lia. Qed.

Lemma wrap64_idem z : wrap64 (wrap64 z) = wrap64 z.
Proof. unfold wrap64. apply Z.mod_mod. lia. Qed.

Lemma wrap64_add t n n' :
  wrap64 n = wrap64 n' -> wrap64 (wrap64 t + n) = wrap64 (t + n').
Proof.
  unfold wrap64. intros Hn.
  rewrite Zplus_mod_idemp_l, (Zplus_mod t n), Hn, <- Zplus_mod. reflexivity.
Qed.

Lemma nest_app ev1 ev2 made :
  nest (ev1 ++ ev2) made
  = match nest ev1 made with
    | Some made' => nest ev2 made'
    | None => None
    end.
Proof.
  revert made. induction ev1 as [|e ev1 IH]; intros made; simpl.
  - reflexivity.
  - destruct e as [m|m|m n]; [apply IH| |apply IH].
    destruct made as [|m' made']; [reflexivity|].
    destruct (m =? m'); [apply IH|reflexivity].
Qed.

(** A balanced run of events leaves the moves below it alone. *)
Lemma nest_frame ev made :
  nest ev [] = Some [] -> nest ev made = Some made.
Proof.
  assert (Hgen : forall ev st st' base,
             nest ev st = Some st' -> nest ev (st ++ base) = Some (st' ++ base)).
  { clear. induction ev as [|e ev IH]; intros st st' base; simpl.
    - now intros [= ->].
    - destruct e as [m|m|m n].
      + intros H. exact (IH (m :: st) st' base H).
      + destruct st as [|m' st0]; [discriminate|]. simpl.
        destruct (m =? m'); [apply IH|discriminate].
      + apply IH. }
  intros H. exact (Hgen ev [] [] made H).
Qed.

Lemma printed_app ev1 ev2 : printed (ev1 ++ ev2) = printed ev1 ++ printed ev2.
Proof.
  induction ev1 as [|e ev1 IH]; simpl; [reflexivity|].
  destruct e; simpl; now rewrite IH.
Qed.

Section Facts.

Variable P : Type.
Variable legalMoves : Side -> P -> list (Move * MoveFn P * MoveFn P).

Local Abbreviation G := (Move * MoveFn P * MoveFn P)%type.
Local Abbreviation perft := (Perft.perft P legalMoves).
Local Abbreviation leaves := (PerftSpec.leaves P legalMoves).
Local Abbreviation divideLines := (PerftSpec.divideLines P legalMoves).
Local Abbreviation lineOf := (PerftSpec.lineOf P).

Lemma leaves_1 Me (pos : P) :
  leaves 1 Me pos = Z.of_nat (length (legalMoves Me pos)).
Proof.
  simpl. induction (legalMoves Me pos) as [|g l IH]; simpl; [reflexivity|].
  rewrite IH. lia.
Qed.

Lemma lines_none (gen : list G) :
  concat ((fun _ : G => @nil (Move * Z)) <$> gen) = [].
Proof. induction gen as [|g gen IH]; [reflexivity|exact IH]. Qed.

Lemma lines_filter (val : G -> Z) (gen : list G) :
  concat (lineOf val <$> gen)
  = filter (fun p => 0 < p.2) ((fun g => (g.1.1, wrap64 (val g))) <$> gen).
Proof.
  induction gen as [|g gen IH]; [reflexivity|].
  rewrite !fmap_cons, concat_cons, IH. unfold lineOf.
  destruct (Z.ltb_spec 0 (wrap64 (val g))) as [Hpos|Hnot].
  - now rewrite filter_cons_True by exact Hpos.
  - rewrite filter_cons_False by (simpl; lia). reflexivity.
Qed.

(** The counts of the lines add up to the sum of the values, modulo the
    range of [size_t]. *)
Lemma lines_sum (val : G -> Z) (gen : list G) :
  wrap64 (sumZ (concat (lineOf val <$> gen)).*2)
  = wrap64 (foldr (fun g acc => val g + acc) 0 gen).
Proof.
  induction gen as [|g gen IH]; [reflexivity|].
  rewrite fmap_cons, concat_cons, fmap_app. unfold sumZ in *.
  rewrite foldr_app.
  change (lineOf val g)
    with (if 0 <? wrap64 (val g) then [(g.1.1, wrap64 (val g))] else []).
  destruct (Z.ltb_spec 0 (wrap64 (val g))) as [Hpos|Hnot].
  - cbn [fmap list_fmap foldr snd]. exact (wrap64_add (val g) _ _ IH).
  - cbn [fmap list_fmap foldr]. rewrite IH.
    assert (H0 : wrap64 (val g) = 0) by (pose proof (wrap64_range (val g)); lia).
    rewrite <- (wrap64_add (val g) _ _ eq_refl), H0. reflexivity.
Qed.

Lemma lines_positive (val : G -> Z) (gen : list G) :
  Forall (fun p => 0 < p.2 < 2 ^ 64) (concat (lineOf val <$> gen)).
Proof.
  induction gen as [|g gen IH]; [constructor|].
  rewrite fmap_cons, concat_cons. apply Forall_app. split; [|exact IH].
  unfold lineOf. destruct (Z.ltb_spec 0 (wrap64 (val g))) as [Hpos|Hnot];
    [|constructor].
  constructor; [|constructor]. simpl. pose proof (wrap64_range (val g)). lia.
Qed.

(** A loop whose body adds, for each move, the count [val] of the move,
    hands the position back and appends balanced events with the lines
    [line] runs to the sum of the counts and to the lines of all moves. *)
Lemma forEachMove_run (gen : list G) body (val : G -> Z)
    (line : G -> list (Move * Z)) (pos : P) :
  (forall m d u t ev, (m, d, u) ∈ gen ->
      exists e,
        body m d u (t, pos, ev)
        = Some (wrap64 (t + wrap64 (val (m, d, u))), pos, ev ++ e)
        /\ printed e = line (m, d, u) /\ nest e [] = Some []) ->
  forall t ev, exists e,
    forEachMove P gen body (wrap64 t, pos, ev)
    = Some (wrap64 (t + foldr (fun g acc => val g + acc) 0 gen), pos, ev ++ e)
    /\ printed e = concat (line <$> gen) /\ nest e [] = Some [].
Proof.
  induction gen as [|[[m d] u] gen IH]; intros Hbody t ev.
  - exists []. cbn [forEachMove foldr]. rewrite Z.add_0_r, app_nil_r. auto.
  - cbn [forEachMove foldr].
    destruct (Hbody m d u (wrap64 t) ev) as (e1 & -> & Hp1 & Hn1);
      [apply list_elem_of_here|].
    rewrite (wrap64_add t _ (val (m, d, u)) (wrap64_idem _)).
    destruct (IH (fun m' d' u' t' e' Hin =>
                    Hbody m' d' u' t' e' (list_elem_of_further _ _ _ Hin))
                 (t + val (m, d, u)) (ev ++ e1)) as (e2 & -> & Hp2 & Hn2).
    exists (e1 ++ e2).
    rewrite printed_app, Hp1, Hp2, nest_app, Hn1, <- app_assoc, Z.add_assoc.
    rewrite fmap_cons, concat_cons. auto.
Qed.

Section Inverses.

Hypothesis undo_do :
  forall (Me : Side) (pos : P) m d u,
    (m, d, u) ∈ legalMoves Me pos -> u m (d m pos) = pos.

(** The non-divide variant from depth 1 on. *)
Lemma perft_false_run fuel :
  forall Me depth (pos : P),
    1 <= depth -> (Z.to_nat depth <= S fuel)%nat ->
    exists e,
      perft fuel false Me depth pos
      = Some (wrap64 (leaves (Z.to_nat depth) Me pos), pos, e)
      /\ printed e = [] /\ nest e [] = Some [].
Proof.
  induction fuel as [|fuel IH]; intros Me depth pos Hd Hfuel.
  - replace depth with 1 by lia.
    rewrite PerftProofs.perft_leaf by lia.
    change (Z.to_nat 1) with 1%nat. rewrite leaves_1. eauto.
  - destruct (Z.eq_dec depth 1) as [->|Hne].
    + rewrite PerftProofs.perft_leaf by lia.
      change (Z.to_nat 1) with 1%nat. rewrite leaves_1. eauto.
    + assert (Hgt : (depth <=? 1) = false) by (apply Z.leb_gt; lia).
      assert (Hneq : (depth =? 1) = false) by (now apply Z.eqb_neq).
      cbn [Perft.perft negb andb]. rewrite Hgt, Hneq.
      replace (Z.to_nat depth) with (S (Z.to_nat (depth - 1))) by lia.
      match goal with
      | |- exists e, forEachMove _ _ ?body _ = _ /\ _ =>
          destruct (forEachMove_run (legalMoves Me pos) body
                      (fun g => leaves (Z.to_nat (depth - 1)) (flipSide Me)
                                       (g.1.2 g.1.1 pos))
                      (fun _ => []) pos) with (t := 0) (ev := @nil Event)
            as (e & Hrun & Hp & Hn)
      end.
      * intros m d u t ev Hin.
        destruct (IH (flipSide Me) (depth - 1) (d m pos))
          as (e1 & -> & Hp1 & Hn1); [lia|lia|].
        rewrite (undo_do Me pos m d u Hin).
        exists ([EvDo m] ++ e1 ++ [EvUndo m]). split; [|split].
        -- cbn [fst snd]. now rewrite <- !app_assoc.
        -- rewrite !printed_app, Hp1. reflexivity.
        -- cbn [app nest]. rewrite nest_app, (nest_frame e1 [m] Hn1).
           cbn [nest]. now rewrite Z.eqb_refl.
      * exists e. rewrite lines_none in Hp. split; [exact Hrun|auto].
Qed.

(** The divide variant at every depth: it counts [S k] plies, where [k] is
    [depth - 1] from depth 1 on and 1 below that. *)
Lemma perft_true_run fuel Me depth (pos : P) (k : nat) :
  k = (if 1 <=? depth then (Z.to_nat depth - 1)%nat else 1%nat) ->
  (k <= S fuel)%nat ->
  exists e,
    perft (S fuel) true Me depth pos
    = Some (wrap64 (leaves (S k) Me pos), pos, e)
    /\ printed e
       = concat (lineOf (fun g => leaves k (flipSide Me) (g.1.2 g.1.1 pos))
                   <$> legalMoves Me pos)
    /\ nest e [] = Some [].
Proof.
  intros Hk Hfuel.
  cbn [Perft.perft negb andb].
  match goal with
  | |- exists e, forEachMove _ _ ?body _ = _ /\ _ =>
      destruct (forEachMove_run (legalMoves Me pos) body
                  (fun g => leaves k (flipSide Me) (g.1.2 g.1.1 pos))
                  (lineOf (fun g => leaves k (flipSide Me) (g.1.2 g.1.1 pos)))
                  pos) with (t := 0) (ev := @nil Event)
        as (e & Hrun & Hp & Hn)
  end; [|exists e; split; [exact Hrun|auto]].
  intros m d u t ev Hin. unfold lineOf. cbn [fst snd].
  destruct (Z.eq_dec depth 1) as [->|Hne].
  - (* depth 1: the move counts for one, and is neither made nor unmade *)
    replace k with 0%nat by (cbn in Hk; lia).
    exists [EvPrint m 1]. split; [reflexivity|split; reflexivity].
  - assert (Hneq : (depth =? 1) = false) by (now apply Z.eqb_neq).
    rewrite Hneq.
    assert (Hnested : exists e1,
               perft fuel false (flipSide Me) (depth - 1) (d m pos)
               = Some (wrap64 (leaves k (flipSide Me) (d m pos)), d m pos, e1)
               /\ printed e1 = [] /\ nest e1 [] = Some []).
    { destruct (Z.leb_spec 1 depth) as [Hge|Hlt].
      - destruct (perft_false_run fuel (flipSide Me) (depth - 1) (d m pos))
          as (e1 & He1 & Hp1 & Hn1); [lia|lia|].
        replace (Z.to_nat (depth - 1)) with k in He1 by lia. eauto.
      - rewrite PerftProofs.perft_leaf by lia. subst k. rewrite leaves_1. eauto. }
    destruct Hnested as (e1 & -> & Hp1 & Hn1).
    rewrite (undo_do Me pos m d u Hin).
    destruct (0 <? wrap64 (leaves k (flipSide Me) (d m pos))) eqn:Hpos.
    + exists ([EvDo m] ++ e1 ++ [EvUndo m]
              ++ [EvPrint m (wrap64 (leaves k (flipSide Me) (d m pos)))]).
      split; [|split].
      * now rewrite <- !app_assoc.
      * rewrite !printed_app, Hp1. reflexivity.
      * cbn [app nest]. rewrite nest_app, (nest_frame e1 [m] Hn1).
        cbn [nest]. now rewrite Z.eqb_refl.
    + exists ([EvDo m] ++ e1 ++ [EvUndo m]). split; [|split].
      * now rewrite <- !app_assoc.
      * rewrite !printed_app, Hp1. reflexivity.
      * cbn [app nest]. rewrite nest_app, (nest_frame e1 [m] Hn1).
        cbn [nest]. now rewrite Z.eqb_refl.
Qed.

(** X7: Perft counts the move sequences: for every depth of at least 1, with
    fuel for the nesting and [undoMove] inverting [doMove], both variants
    return the number of sequences of [depth] generated moves from the
    position, reduced to the range of [size_t], and restore the position. *)
Theorem perft_counts_move_sequences
    (fuel : nat) (Div : bool) (Me : Side) (depth : Z) (pos : P) :
  1 <= depth ->
  (Z.to_nat depth <= fuel)%nat ->
  exists ev,
    perft fuel Div Me depth pos
    = Some (wrap64 (leaves (Z.to_nat depth) Me pos), pos, ev).
Proof.
  intros Hd Hfuel. destruct Div.
  - destruct fuel as [|fuel]; [lia|].
    destruct (perft_true_run fuel Me depth pos (Z.to_nat depth - 1))
      as (e & He & _); [|lia|].
    + destruct (Z.leb_spec 1 depth); [reflexivity|lia].
    + replace (S (Z.to_nat depth - 1)) with (Z.to_nat depth) in He by lia. eauto.
  - destruct (perft_false_run fuel Me depth pos) as (e & He & _); [lia|lia|].
    eauto.
Qed.

(** X8: The divide variant at depth 0 or below does not stop at the position:
    it makes every move and counts the replies, and so returns the number
    of two-move sequences, the value of depth 2. *)
Theorem perft_divide_at_depth_zero_counts_two_plies
    (fuel : nat) (Me : Side) (depth : Z) (pos : P) :
  depth <= 0 ->
  exists ev ev2,
    perft (S fuel) true Me depth pos = Some (wrap64 (leaves 2 Me pos), pos, ev)
    /\ perft (S (S fuel)) true Me 2 pos
       = Some (wrap64 (leaves 2 Me pos), pos, ev2).
Proof.
  intros Hd.
  destruct (perft_true_run fuel Me depth pos 1) as (e & He & _); [|lia|].
  { destruct (Z.leb_spec 1 depth); [lia|reflexivity]. }
  destruct (perft_true_run (S fuel) Me 2 pos 1) as (e2 & He2 & _);
    [reflexivity|lia|].
  eauto.
Qed.

(** X9: The divide variant writes, for each generated move in the order of
    generation, the move and the number of sequences below it, and leaves
    out the moves whose count is zero; below depth 1 the counts are those of
    depth 2. *)
Theorem perft_divide_prints_subtree_counts
    (fuel : nat) (Me : Side) (depth : Z) (pos : P) :
  (1 <= fuel)%nat ->
  (Z.to_nat depth <= fuel)%nat ->
  exists total ev,
    perft fuel true Me depth pos = Some (total, pos, ev)
    /\ printed ev = divideLines (plies true depth - 1) Me pos.
Proof.
  intros H1 Hfuel. destruct fuel as [|fuel]; [lia|].
  destruct (perft_true_run fuel Me depth pos (plies true depth - 1))
    as (e & He & Hp & _).
  - unfold plies. destruct (1 <=? depth); reflexivity.
  - unfold plies. destruct (Z.leb_spec 1 depth); cbn; lia.
  - rewrite lines_filter in Hp. eauto.
Qed.

(** X10: In every run the calls of [doMove] and [undoMove] are nested like
    brackets, each [undoMove] taking back the last move still made, and none
    is left open. The non-divide variant writes no line; the lines of the
    divide variant have counts above zero that add up, in the range of
    [size_t], to the value returned. *)
Theorem perft_trace_balanced
    (fuel : nat) (Div : bool) (Me : Side) (depth : Z) (pos : P) :
  (1 <= fuel)%nat ->
  (Z.to_nat depth <= fuel)%nat ->
  exists total ev,
    perft fuel Div Me depth pos = Some (total, pos, ev)
    /\ nest ev [] = Some []
    /\ if Div
       then total = wrap64 (sumZ (printed ev).*2)
            /\ Forall (fun p => 0 < p.2 < 2 ^ 64) (printed ev)
       else printed ev = [].
Proof.
  intros H1 Hfuel. destruct Div.
  - destruct fuel as [|fuel]; [lia|].
    destruct (perft_true_run fuel Me depth pos (plies true depth - 1))
      as (e & He & Hp & Hn).
    + unfold plies. destruct (1 <=? depth); reflexivity.
    + unfold plies. destruct (Z.leb_spec 1 depth); cbn; lia.
    + exists (wrap64 (leaves (S (plies true depth - 1)) Me pos)), e.
      split; [exact He|]. split; [exact Hn|]. rewrite Hp. split.
      * rewrite lines_sum. reflexivity.
      * apply lines_positive.
  - destruct (Z.leb_spec 1 depth) as [Hge|Hlt].
    + destruct (perft_false_run fuel Me depth pos) as (e & He & Hp & Hn);
        [lia|lia|]. eauto.
    + rewrite PerftProofs.perft_leaf by lia. eauto.
Qed.

(** X11: The entry point [perft<Div>] always has a value: it runs the variant
    for the side to move and returns the number of sequences of [plies]
    moves from the position, which it restores. *)
Theorem perftSide_counts (getSideToMove : P -> Side)
    (Div : bool) (depth : Z) (pos : P) :
  exists ev,
    perftSide P getSideToMove legalMoves Div depth pos
    = Some (wrap64 (leaves (plies Div depth) (getSideToMove pos) pos), pos, ev).
Proof.
  assert (Hall : forall Me, exists ev,
             perft (perftFuel depth) Div Me depth pos
             = Some (wrap64 (leaves (plies Div depth) Me pos), pos, ev)).
  { intros Me. unfold perftFuel, plies. destruct Div.
    - destruct (perft_true_run (Z.to_nat depth) Me depth pos
                  (if 1 <=? depth then (Z.to_nat depth - 1)%nat else 1%nat))
        as (e & He & _); [reflexivity| |].
      + destruct (1 <=? depth); lia.
      + destruct (Z.leb_spec 1 depth) as [Hge|Hlt]; [|eauto].
        replace (S (Z.to_nat depth - 1)) with (Z.to_nat depth) in He by lia.
        eauto.
    - destruct (Z.leb_spec 1 depth) as [Hge|Hlt].
      + destruct (perft_false_run (S (Z.to_nat depth)) Me depth pos)
          as (e & He & _); [lia|lia|]. eauto.
      + rewrite PerftProofs.perft_leaf by lia. rewrite leaves_1. eauto. }
  unfold perftSide. destruct (getSideToMove pos); apply Hall.
Qed.

End Inverses.

End Facts.

(** The theorems on the toy game. *)

Lemma perft_counts_move_sequences_witness :
  exists ev,
    Perft.perft (list Move) toyMoves 3 true WHITE 3 []
    = Some (wrap64 (leaves (list Move) toyMoves (Z.to_nat 3) WHITE []), [], ev).
Proof.
  apply (perft_counts_move_sequences (list Move) toyMoves
           PerftProofs.toy_undo_do 3 true WHITE 3 []); [lia|cbn; lia].
Defined.

Lemma perft_divide_at_depth_zero_counts_two_plies_witness :
  exists ev ev2,
    Perft.perft (list Move) toyMoves 1 true WHITE 0 []
    = Some (wrap64 (leaves (list Move) toyMoves 2 WHITE []), [], ev)
    /\ Perft.perft (list Move) toyMoves 2 true WHITE 2 []
       = Some (wrap64 (leaves (list Move) toyMoves 2 WHITE []), [], ev2).
Proof.
  apply (perft_divide_at_depth_zero_counts_two_plies (list Move) toyMoves
           PerftProofs.toy_undo_do 0 WHITE 0 []). lia.
Defined.

Lemma perft_divide_prints_subtree_counts_witness :
  exists total ev,
    Perft.perft (list Move) toyMoves 3 true WHITE 3 [] = Some (total, [], ev)
    /\ printed ev
       = PerftSpec.divideLines (list Move) toyMoves (plies true 3 - 1) WHITE [].
Proof.
  apply (perft_divide_prints_subtree_counts (list Move) toyMoves
           PerftProofs.toy_undo_do 3 WHITE 3 []); cbn; lia.
Defined.

Lemma perft_trace_balanced_witness :
  exists total ev,
    Perft.perft (list Move) toyMoves 3 true WHITE 3 [] = Some (total, [], ev)
    /\ nest ev [] = Some []
    /\ total = wrap64 (sumZ (printed ev).*2)
    /\ Forall (fun p => 0 < p.2 < 2 ^ 64) (printed ev).
Proof.
  apply (perft_trace_balanced (list Move) toyMoves
           PerftProofs.toy_undo_do 3 true WHITE 3 []); cbn; lia.
Defined.

Lemma perftSide_counts_witness :
  exists ev,
    perftSide (list Move) toySide toyMoves true 0 []
    = Some (wrap64 (leaves (list Move) toyMoves (plies true 0) (toySide []) []),
            [], ev).
Proof.
  apply (perftSide_counts (list Move) toyMoves PerftProofs.toy_undo_do
           toySide true 0 []).
Defined.

End PerftExtras.

(** ** More on the move picker *)

Module MovePickerExtras.

Import MovePicker Stages MovePickerProofs.

Lemma sorted_filter {A} (R : relation A) (P : A -> Prop)
    `{forall x, Decision (P x)} (l : list A) :
  StronglySorted R l -> StronglySorted R (filter P l).
Proof.
  induction 1 as [|x l Hs IH Hall]; [constructor|].
  destruct (decide (P x)).
  - rewrite filter_cons_True by assumption. constructor; [exact IH|].
    apply Forall_forall. intros y Hy. apply list_elem_of_filter in Hy as [_ Hy].
    rewrite Forall_forall in Hall. auto.
  - rewrite filter_cons_False by assumption. exact IH.
Qed.

Lemma Forall_filter_of {A} (Q P : A -> Prop) `{forall x, Decision (P x)}
    (l : list A) :
  Forall Q l -> Forall Q (filter P l).
Proof.
  rewrite !Forall_forall. intros Hall x Hx.
  apply list_elem_of_filter in Hx as [_ Hx]. auto.
Qed.

Lemma int16_small z : -32768 <= z < 32768 -> int16 z = z.
Proof. intros Hz. unfold int16. rewrite Z.mod_small by lia. lia. Qed.

Section Lists.

Context `{CH : ChessH}.

(** Moves in non-increasing order of their scores are in non-increasing
    order of the scoring function that gave the scores. *)
Lemma sorted_moves (sc : Move -> Z) (L : list ScoredMove) :
  Forall (fun sm => score sm = sc (move sm)) L ->
  StronglySorted (fun a b => score b <= score a) L ->
  StronglySorted (fun a b => sc b <= sc a) (move <$> L).
Proof.
  intros Hsc Hs. induction Hs as [|x l Hs IH Hall]; [constructor|].
  apply Forall_cons in Hsc as [Hx Hl]. rewrite fmap_cons.
  constructor; [now apply IH|].
  apply Forall_fmap, Forall_forall. intros y Hy. simpl.
  rewrite Forall_forall in Hall, Hl. rewrite <- Hx, <- (Hl y Hy). now apply Hall.
Qed.

Lemma scored_scores (sc : Move -> Z) (l : list GenMove) :
  Forall (fun sm => score sm = sc (move sm)) (scored sc <$> l).
Proof. apply Forall_fmap, Forall_forall. intros g _. reflexivity. Qed.

Lemma elem_filter_moves (f : ScoredMove -> bool) (g : Move -> bool) (b : bool)
    (L : list ScoredMove) (m : Move) :
  (forall sm, f sm = g (move sm)) ->
  m ∈ move <$> filter (fun sm => f sm = b) L <-> g m = b /\ m ∈ move <$> L.
Proof.
  intros Hfg. rewrite !list_elem_of_fmap. split.
  - intros (sm & -> & Hin). apply list_elem_of_filter in Hin as [Hf Hin].
    rewrite Hfg in Hf. eauto.
  - intros (Hg & sm & -> & Hin). exists sm. split; [reflexivity|].
    apply list_elem_of_filter. rewrite Hfg. auto.
Qed.

Lemma escapeBonus_range (pos : Position) pt to :
  0 <= escapeBonus pos pt to <= 1000.
Proof.
  unfold escapeBonus.
  repeat match goal with
         | |- context [if ?b then _ else _] => destruct b
         end; lia.
Qed.

Lemma checkBonus_range (Me : Side) (pos : Position) pt to :
  0 <= checkBonus Me pos pt to <= 30.
Proof.
  unfold checkBonus, casePawn. destruct pt;
    repeat match goal with
           | |- context [if ?b then _ else _] => destruct b
           end; lia.
Qed.

Context {SS : StdSort}.

Lemma evasions_free Me pos tt :
  Forall (fun sm => move sm <> tt) (evasions Me pos tt).
Proof. unfold evasions. rewrite (std_sort_perm _). apply evasions_tt_free. Qed.

End Lists.

Section Logs.

Context `{CH : ChessH} {S : Type}.
Variable h : Handler S.

(** Logging does not change what the handler does; the log grows by the
    moves passed to the handler: all of them when the run reaches its end,
    and at least one when the handler stops it. *)
Lemma yieldAll_logged_run l :
  forall s log,
    (yieldAll (logged h) l (s, log)).1 = (yieldAll h l s).1
    /\ (yieldAll (logged h) l (s, log)).2.1 = (yieldAll h l s).2
    /\ exists pre,
         (yieldAll (logged h) l (s, log)).2.2 = log ++ pre
         /\ pre `prefix_of` (move <$> l)
         /\ ((yieldAll h l s).1 = Some tt -> pre = move <$> l)
         /\ ((yieldAll h l s).1 = None -> pre <> []).
Proof.
  induction l as [|m l IH]; intros s log.
  - simpl. split; [reflexivity|]. split; [reflexivity|].
    exists []. rewrite app_nil_r. split; [reflexivity|].
    split; [apply prefix_nil|]. split; [reflexivity|discriminate].
  - simpl. unfold bindE, yield, logged at 1 3 5. simpl.
    destruct (h (move m) (doMove m) (undoMove m) s) as [[|] s'].
    + destruct (IH s' (log ++ [move m])) as (H1 & H2 & pre & Hlog & Hpre & Hfull & Hstop).
      split; [exact H1|]. split; [exact H2|].
      exists (move m :: pre). rewrite Hlog, <- app_assoc.
      split; [reflexivity|]. split; [now apply prefix_cons|].
      split; [|discriminate]. intros Hend. now rewrite (Hfull Hend).
    + simpl. split; [reflexivity|]. split; [reflexivity|].
      exists [move m]. split; [reflexivity|].
      split; [apply prefix_cons, prefix_nil|]. split; discriminate.
Qed.

Lemma yieldAll_continues l :
  (forall m d u s, (h m d u s).1 = true) ->
  forall s, (yieldAll h l s).1 = Some tt.
Proof.
  intros Hgo. induction l as [|m l IH]; intros s; simpl; [reflexivity|].
  unfold bindE, yield. specialize (Hgo (move m) (doMove m) (undoMove m) s).
  destruct (h (move m) (doMove m) (undoMove m) s) as [[|] s']; [apply IH|].
  discriminate.
Qed.

End Logs.

Lemma finish_result {S X} (m : Enum S X) s :
  (finish m s).1 = match (m s).1 with Some _ => true | None => false end.
Proof. unfold finish. now destruct (m s) as [[x|] s']. Qed.

(** X12: In [MAIN] mode a full enumeration yields every legal move exactly
    once: when the generator repeats no move and splits the legal moves
    into the tactical ones, which [isTactical] recognises, and the quiet
    ones, which it rejects, when [isLegal] accepts the generated moves and
    no others, and the two killers differ unless the first is the sentinel,
    the moves yielded are the generated legal moves, each once, in some
    order. *)
Theorem main_yields_every_legal_move_once
    `{CH : ChessH} {SS : StdSort}
    (Me : Side) (pos : Position) (ttMove killer1 killer2 counter : Move) :
  NoDup (genMove <$> legalMoves pos Me ALL_MOVES) ->
  genMove <$> legalMoves pos Me ALL_MOVES
  ≡ₚ (genMove <$> legalMoves pos Me TACTICAL_MOVES)
     ++ (genMove <$> legalMoves pos Me QUIET_MOVES) ->
  (forall m, m ∈ genMove <$> legalMoves pos Me TACTICAL_MOVES ->
             isTactical pos m = true) ->
  (forall m, m ∈ genMove <$> legalMoves pos Me QUIET_MOVES ->
             isTactical pos m = false) ->
  (forall m, isLegal pos Me m = true
             <-> m ∈ genMove <$> legalMoves pos Me ALL_MOVES) ->
  isLegal pos Me MOVE_NONE = false ->
  killer1 <> killer2 \/ killer1 = MOVE_NONE ->
  yielded MAIN Me pos ttMove killer1 killer2 counter
  ≡ₚ genMove <$> legalMoves pos Me ALL_MOVES.
Proof.
  intros Hnd Hsplit Htac Hq Hlegal Hnone Hk.
  rewrite yielded_staged, staged_perm.
  assert (Hnd2 : NoDup ((genMove <$> legalMoves pos Me TACTICAL_MOVES)
                        ++ (genMove <$> legalMoves pos Me QUIET_MOVES)))
    by now rewrite <- Hsplit.
  assert (HinT : forall m, m ∈ genMove <$> legalMoves pos Me TACTICAL_MOVES ->
                           m ∈ genMove <$> legalMoves pos Me ALL_MOVES).
  { intros m Hin. rewrite Hsplit. apply elem_of_app. auto. }
  assert (HinQ : forall m, m ∈ genMove <$> legalMoves pos Me QUIET_MOVES ->
                           m ∈ genMove <$> legalMoves pos Me ALL_MOVES).
  { intros m Hin. rewrite Hsplit. apply elem_of_app. auto. }
  apply NoDup_Permutation; [now apply NoDup_kept|exact Hnd|].
  intros m. unfold kept. rewrite elem_of_app. split.
  - intros [Hin|Hin].
    + apply in_ttStage in Hin as [-> Hl]. now apply Hlegal.
    + destruct (inCheck pos).
      * now apply in_keptEvasion in Hin as [_ Hin].
      * rewrite !elem_of_app in Hin.
        destruct Hin as [Hin|[Hin|[Hin|[Hin|Hin]]]].
        -- apply in_keptTactical in Hin as [_ Hin]. auto.
        -- apply in_killer1Stage in Hin as (-> & _ & _ & Hl). now apply Hlegal.
        -- apply in_killer2Stage in Hin as (-> & _ & _ & Hl). now apply Hlegal.
        -- unfold counterStage in Hin.
           destruct (negb (counter =? ttMove) && negb (isTactical pos counter)
                     && negb (counter =? killer1) && negb (counter =? killer2)
                     && isLegal pos Me counter) eqn:Hc;
             [|now apply elem_of_nil in Hin].
           apply list_elem_of_singleton in Hin. simpl in Hin. subst m.
           apply andb_true_iff in Hc as [_ Hl]. now apply Hlegal.
        -- apply in_keptQuiet in Hin as (_ & _ & _ & _ & Hin). auto.
  - intros Hin. destruct (decide (m = ttMove)) as [->|Hne].
    + left. unfold ttStage. rewrite (proj2 (Hlegal ttMove) Hin).
      apply list_elem_of_here.
    + right. pose proof (proj2 (Z.eqb_neq m ttMove) Hne) as Hnett.
      destruct (inCheck pos).
      * apply keptOf_intro; [|exact Hin]. unfold keepEvasion. now rewrite Hnett.
      * rewrite Hsplit in Hin. apply elem_of_app in Hin as [Ht|Hqu].
        -- apply elem_of_app. left. apply keptOf_intro; [|exact Ht].
           unfold keepTactical. now rewrite Hnett.
        -- apply elem_of_app. right.
           assert (Hl : isLegal pos Me m = true) by (apply Hlegal; auto).
           pose proof (Hq m Hqu) as Hnt.
           destruct (decide (m = killer1)) as [<-|H1].
           { apply elem_of_app. left. unfold killer1Stage.
             rewrite Hnett, Hnt, Hl. apply list_elem_of_here. }
           apply elem_of_app. right.
           destruct (decide (m = killer2)) as [<-|H2].
           { apply elem_of_app. left. unfold killer2Stage.
             rewrite Hnett, Hnt, Hl. apply list_elem_of_here. }
           apply elem_of_app. right.
           destruct (decide (m = counter)) as [<-|H3].
           { apply elem_of_app. left. unfold counterStage.
             rewrite Hnett, Hnt, Hl, (proj2 (Z.eqb_neq m killer1) H1),
               (proj2 (Z.eqb_neq m killer2) H2). apply list_elem_of_here. }
           apply elem_of_app. right. apply keptOf_intro; [|exact Hqu].
           unfold keepQuiet.
           rewrite Hnett, (proj2 (Z.eqb_neq killer1 m) (not_eq_sym H1)),
             (proj2 (Z.eqb_neq killer2 m) (not_eq_sym H2)),
             (proj2 (Z.eqb_neq counter m) (not_eq_sym H3)). reflexivity.
Qed.

(** X13: After the TT move, a full enumeration in check yields the generated
    moves other than the TT move in non-increasing order of [scoreEvasion]
    and nothing else; out of check it goes on with the generated tactical
    moves other than the TT move that pass [see] (at -50 in [MAIN] mode, at 0
    in [QUIESCENCE] mode) in non-increasing order of [scoreTactical], and
    in [QUIESCENCE] mode it ends there. *)
Theorem captures_and_evasions_in_score_order
    `{CH : ChessH} {SS : StdSort}
    (Ty : MovePickerType) (Me : Side) (pos : Position)
    (ttMove killer1 killer2 counter : Move) :
  exists l rest,
    yielded Ty Me pos ttMove killer1 killer2 counter
    = (if isLegal pos Me ttMove then [ttMove] else []) ++ l ++ rest
    /\ if inCheck pos
       then rest = []
            /\ StronglySorted
                 (fun a b => scoreEvasion pos b <= scoreEvasion pos a) l
            /\ (forall m, m ∈ l <->
                          m ∈ genMove <$> legalMoves pos Me ALL_MOVES
                          /\ m <> ttMove)
       else StronglySorted
              (fun a b => scoreTactical pos b <= scoreTactical pos a) l
            /\ (forall m, m ∈ l <->
                          m ∈ genMove <$> legalMoves pos Me TACTICAL_MOVES
                          /\ m <> ttMove
                          /\ match Ty with
                             | MAIN => see pos m (-50)
                             | QUIESCENCE => see pos m 0
                             end = true)
            /\ (Ty = QUIESCENCE -> rest = []).
Proof.
  rewrite yielded_staged. unfold staged. rewrite fmap_app.
  assert (Htt : move <$> ttStage Me pos ttMove
                = if isLegal pos Me ttMove then [ttMove] else []).
  { unfold ttStage. now destruct (isLegal pos Me ttMove). }
  rewrite Htt. clear Htt. destruct (inCheck pos).
  - exists (move <$> evasions Me pos ttMove), [].
    rewrite (filter_all _ _ (evasions_free Me pos ttMove)), app_nil_r.
    split; [reflexivity|]. split; [reflexivity|]. split.
    + apply sorted_moves; [|apply std_sort_sorted].
      unfold evasions. rewrite (std_sort_perm _). apply scored_scores.
    + intros m. unfold evasions. rewrite (std_sort_perm _), move_scored. split.
      * intros Hin. apply in_keptEvasion in Hin. tauto.
      * intros [Hin Hne]. apply keptOf_intro; [|exact Hin].
        unfold keepEvasion. now apply negb_true_iff, Z.eqb_neq.
  - rewrite fmap_app. eexists _, _. split; [reflexivity|]. split; [|split].
    + unfold goodTacticals. apply sorted_moves.
      * apply Forall_filter_of. unfold tacticals.
        rewrite (std_sort_perm _). apply scored_scores.
      * apply sorted_filter, std_sort_sorted.
    + intros m. unfold goodTacticals.
      rewrite (elem_filter_moves _
                 (fun m => match Ty with
                           | MAIN => negb (see pos m (-50))
                           | QUIESCENCE => false
                           end) false _ m (fun _ => eq_refl)).
      unfold tacticals. rewrite (std_sort_perm _), move_scored. split.
      * intros [Hsee Hin]. apply keptOf_keep in Hin as [Hk Hin].
        unfold keepTactical in Hk. apply andb_true_iff in Hk as [Hne Hq].
        apply negb_true_iff, Z.eqb_neq in Hne.
        split; [exact Hin|]. split; [exact Hne|].
        destruct Ty; [now apply negb_false_iff|exact Hq].
      * intros (Hin & Hne & Hsee). split.
        -- destruct Ty; [now apply negb_false_iff|reflexivity].
        -- apply keptOf_intro; [|exact Hin]. unfold keepTactical.
           apply andb_true_iff. split; [now apply negb_true_iff, Z.eqb_neq|].
           destruct Ty; [reflexivity|exact Hsee].
    + intros ->. reflexivity.
Qed.

(** X14: The test [m.move == ttMove] in the loop over the sorted evasions never
    holds: the callback that collected the moves has left the TT move out,
    so the loop passes the whole array to the handler. *)
Theorem evasion_loop_skips_nothing
    `{CH : ChessH} {SS : StdSort}
    (Me : Side) (pos : Position) (ttMove : Move)
    (S : Type) (handler : Handler S) (s : S) :
  Forall (fun sm => move sm <> ttMove)
    (std_sort (enumerateLegalMoves (legalMoves pos Me ALL_MOVES)
                 (collectEvasion pos ttMove) []).2)
  /\ evasionsLoop ttMove handler
       (std_sort (enumerateLegalMoves (legalMoves pos Me ALL_MOVES)
                    (collectEvasion pos ttMove) []).2) s
     = yieldAll handler
         (std_sort (enumerateLegalMoves (legalMoves pos Me ALL_MOVES)
                      (collectEvasion pos ttMove) []).2) s.
Proof.
  rewrite collectEvasion_run. simpl.
  pose proof (evasions_free Me pos ttMove) as Hfree. unfold evasions in Hfree.
  split; [exact Hfree|].
  rewrite evasionsLoop_spec. now rewrite (filter_all _ _ Hfree).
Qed.

(** X15: What [enumerate] returns, for every handler. The moves passed to
    the handler are an initial part of the full enumeration. When
    [enumerate] returns [true] the handler has seen the full enumeration;
    when it returns [false] the handler has seen at least one move; a
    handler that always answers [true] makes it return [true]. Recording the
    moves changes neither the result nor the state the handler leaves. *)
Theorem enumerate_result_and_log
    `{CH : ChessH} {SS : StdSort}
    (Ty : MovePickerType) (Me : Side) (pos : Position)
    (ttMove killer1 killer2 counter : Move)
    (S : Type) (handler : Handler S) (s : S) :
  let run := enumerate Ty Me pos ttMove killer1 killer2 counter
                       (logged handler) (s, []) in
  let all := yielded Ty Me pos ttMove killer1 killer2 counter in
  run.1 = (enumerate Ty Me pos ttMove killer1 killer2 counter handler s).1
  /\ run.2.1 = (enumerate Ty Me pos ttMove killer1 killer2 counter handler s).2
  /\ run.2.2 `prefix_of` all
  /\ (run.1 = true -> run.2.2 = all)
  /\ (run.1 = false -> run.2.2 <> [])
  /\ ((forall m d u s', (handler m d u s').1 = true) -> run.1 = true).
Proof.
  cbn zeta. rewrite yielded_staged, !enumerate_staged, !finish_result, !finish_state.
  set (l := staged Ty Me pos ttMove killer1 killer2 counter).
  destruct (yieldAll_logged_run handler l s [])
    as (H1 & H2 & pre & Hlog & Hpre & Hfull & Hstop).
  rewrite H1, H2, Hlog. simpl.
  split; [reflexivity|]. split; [reflexivity|]. split; [exact Hpre|].
  split; [|split].
  - destruct (yieldAll handler l s).1 as [[]|]; [auto|discriminate].
  - destruct (yieldAll handler l s).1 as [[]|]; [discriminate|auto].
  - intros Hgo. now rewrite (yieldAll_continues handler l Hgo s).
Qed.

(** X16: A quiet move scores below zero exactly when it is a promotion, which
    scores -100; every other move scores at least zero. So the moves that
    the good-quiets loop puts off are the promotions. The piece types are
    numbered from 0 to [NB_PIECE_TYPE], a number far below the range of
    [int16_t]. *)
Theorem scoreQuiet_negative_iff_promotion
    `{CH : ChessH} (Me : Side) (pos : Position)
    (threatenedPieces : Bitboard) (m : Move) :
  0 <= NB_PIECE_TYPE - pieceTypeInt (pieceType (getPieceAt pos (moveFrom m)))
    <= 31000 ->
  (scoreQuiet Me pos threatenedPieces m < 0 <-> moveType m = PROMOTION)
  /\ (moveType m = PROMOTION -> scoreQuiet Me pos threatenedPieces m = -100)
  /\ (forall sm, move sm = m ->
                 score sm = scoreQuiet Me pos threatenedPieces m ->
                 (deferQuiet sm = true <-> moveType m = PROMOTION)).
Proof.
  intros Hpt.
  assert (Hpromo : moveType m = PROMOTION ->
                   scoreQuiet Me pos threatenedPieces m = -100).
  { intros Hp. unfold scoreQuiet. now rewrite Hp. }
  assert (Hother : moveType m <> PROMOTION ->
                   0 <= scoreQuiet Me pos threatenedPieces m).
  { intros Hnp. rewrite (scoreQuiet_bonus Me pos threatenedPieces m Hnp).
    pose proof (escapeBonus_range pos
                  (pieceType (getPieceAt pos (moveFrom m))) (moveTo m)).
    pose proof (checkBonus_range Me pos
                  (pieceType (getPieceAt pos (moveFrom m))) (moveTo m)).
    rewrite int16_small;
      destruct (onSquare threatenedPieces (moveFrom m)); lia. }
  assert (Hiff : scoreQuiet Me pos threatenedPieces m < 0
                 <-> moveType m = PROMOTION).
  { split.
    - intros Hneg. destruct (moveType m) eqn:Hty; try reflexivity;
        exfalso; assert (Hnp : moveType m <> PROMOTION) by congruence;
        rewrite <- Hty in Hother; specialize (Hother Hnp); lia.
    - intros Hp. rewrite (Hpromo Hp). lia. }
  split; [exact Hiff|]. split; [exact Hpromo|].
  intros sm _ Hsc. unfold deferQuiet. rewrite Hsc, Z.ltb_lt. exact Hiff.
Qed.

(** X17: The last three stages of [MAIN] mode read one array: the captures put
    off by the good-tacticals loop and the quiet moves, sorted together.
    After the TT move, the good captures, the killers and the counter move,
    a full enumeration yields three runs, each in non-increasing order of
    score: the entries past the first [n] that score at least zero, the
    first [n] entries, and the entries past the first [n] that score below
    zero, where [n] is the number of captures put off. The middle run
    outscores the two others. *)
Theorem main_tail_is_one_sorted_array
    `{CH : ChessH} {SS : StdSort}
    (Me : Side) (pos : Position) (ttMove killer1 killer2 counter : Move) :
  inCheck pos = false ->
  exists gq bt bq : list ScoredMove,
    yielded MAIN Me pos ttMove killer1 killer2 counter
    = (move <$> (ttStage Me pos ttMove ++ goodTacticals MAIN Me pos ttMove
                 ++ killer1Stage Me pos ttMove killer1
                 ++ killer2Stage Me pos ttMove killer2
                 ++ counterStage Me pos ttMove killer1 killer2 counter))
      ++ (move <$> gq) ++ (move <$> bt) ++ (move <$> bq)
    /\ gq ++ bt ++ bq
       ≡ₚ badTacticals MAIN Me pos ttMove
          ++ quietMoves Me pos ttMove killer1 killer2 counter
    /\ length bt = length (badTacticals MAIN Me pos ttMove)
    /\ (forall a b, a ∈ bt -> b ∈ gq ++ bq -> score b <= score a)
    /\ Forall (fun sm => 0 <= score sm) gq
    /\ Forall (fun sm => score sm < 0) bq
    /\ StronglySorted (fun a b => score b <= score a) gq
    /\ StronglySorted (fun a b => score b <= score a) bt
    /\ StronglySorted (fun a b => score b <= score a) bq.
Proof.
  intros Hc.
  exists (goodQuietsYield MAIN Me pos ttMove killer1 killer2 counter),
         (badTacticalsYield MAIN Me pos ttMove killer1 killer2 counter),
         (badQuietsYield MAIN Me pos ttMove killer1 killer2 counter).
  pose proof (std_sort_sorted
                (badTacticals MAIN Me pos ttMove
                 ++ quietMoves Me pos ttMove killer1 killer2 counter)) as Hs.
  fold (sortedTail MAIN Me pos ttMove killer1 killer2 counter) in Hs.
  rewrite <- (take_drop (length (badTacticals MAIN Me pos ttMove))
                (sortedTail MAIN Me pos ttMove killer1 killer2 counter)) in Hs.
  apply StronglySorted_app in Hs as (Hcross & Hst & Hsd).
  split; [|split; [|split; [|split; [|split; [|split; [|split; [|split]]]]]]].
  - rewrite yielded_staged. unfold staged. rewrite Hc.
    now rewrite !fmap_app, <- !app_assoc.
  - apply tail_stages_perm.
  - unfold badTacticalsYield. apply length_take_le.
    rewrite length_sortedTail. lia.
  - intros a b Ha Hb. apply (Hcross a b Ha).
    apply elem_of_app in Hb as [Hb|Hb];
      now apply list_elem_of_filter in Hb as [_ Hb].
  - apply Forall_forall. intros sm Hin.
    apply list_elem_of_filter in Hin as [Hd _].
    unfold deferQuiet in Hd. now apply Z.ltb_ge.
  - apply Forall_forall. intros sm Hin.
    apply list_elem_of_filter in Hin as [Hd _].
    unfold deferQuiet in Hd. now apply Z.ltb_lt.
  - now apply sorted_filter.
  - exact Hst.
  - now apply sorted_filter.
Qed.

(** X18: The assertion of the constructor is needed. Out of check in [MAIN]
    mode, when both killer slots hold the same move, and that move is
    legal, not tactical and not the TT move, the killer-1 stage and the
    killer-2 stage pass it to the handler one after the other. *)
Theorem equal_killers_are_yielded_twice
    `{CH : ChessH} {SS : StdSort}
    (Me : Side) (pos : Position) (ttMove killer counter : Move) :
  inCheck pos = false ->
  killer <> ttMove ->
  isTactical pos killer = false ->
  isLegal pos Me killer = true ->
  exists before after,
    yielded MAIN Me pos ttMove killer killer counter
    = before ++ killer :: killer :: after
    /\ ~ NoDup (yielded MAIN Me pos ttMove killer killer counter).
Proof.
  intros Hc Hne Hnt Hl.
  assert (Hshape : exists before after,
             yielded MAIN Me pos ttMove killer killer counter
             = before ++ killer :: killer :: after).
  { rewrite yielded_staged. unfold staged. rewrite Hc.
    unfold killer1Stage, killer2Stage.
    rewrite (proj2 (Z.eqb_neq killer ttMove) Hne), Hnt, Hl.
    cbn [negb andb]. rewrite app_assoc, fmap_app.
    eexists _, _. reflexivity. }
  destruct Hshape as (before & after & Heq). exists before, after.
  split; [exact Heq|]. rewrite Heq. intros Hnd.
  apply NoDup_app in Hnd as (_ & _ & Hnd).
  apply NoDup_cons in Hnd as [Hnot _]. apply Hnot, list_elem_of_here.
Qed.

(** X19: The quiescence search looks at a part of what the main search looks
    at: every move of a full enumeration in [QUIESCENCE] mode is a move of
    the full enumeration in [MAIN] mode of the same position with the same
    TT move, whatever the killers and counter moves are; in check the two
    enumerations are the same. *)
Theorem quiescence_moves_are_main_moves
    `{CH : ChessH} {SS : StdSort}
    (Me : Side) (pos : Position)
    (ttMove killer1 killer2 counter killer1' killer2' counter' : Move) :
  yielded QUIESCENCE Me pos ttMove killer1 killer2 counter
  ⊆ yielded MAIN Me pos ttMove killer1' killer2' counter'
  /\ (if inCheck pos
      then yielded QUIESCENCE Me pos ttMove killer1 killer2 counter
           = yielded MAIN Me pos ttMove killer1' killer2' counter'
      else True).
Proof.
  split.
  - intros m. rewrite !yielded_staged, !staged_perm. unfold kept.
    intros Hin. apply elem_of_app in Hin as [Hin|Hin]; apply elem_of_app;
      [left; exact Hin|right].
    destruct (inCheck pos); [exact Hin|].
    rewrite app_nil_r in Hin. apply elem_of_app. left.
    apply keptOf_keep in Hin as [Hk Hin]. apply keptOf_intro; [|exact Hin].
    unfold keepTactical in *. apply andb_true_iff in Hk as [Hne _].
    now rewrite Hne.
  - destruct (inCheck pos) eqn:Hc; [|exact I].
    rewrite !yielded_staged. unfold staged. now rewrite Hc.
Qed.

(** The theorems on position A. *)

Import Cases Ref.

Lemma posA_quiet_not_tactical m :
  m ∈ genMove <$> legalMoves posA WHITE QUIET_MOVES -> isTactical posA m = false.
Proof.
  intros Hin. apply list_elem_of_In in Hin. vm_compute in Hin.
  repeat (destruct Hin as [<-|Hin]; [reflexivity|]). destruct Hin.
Qed.

Lemma posA_legal_iff m :
  isLegal posA WHITE m = true <-> m ∈ genMove <$> legalMoves posA WHITE ALL_MOVES.
Proof.
  split; [|apply posA_gen_legal].
  intros Hl. apply existsb_exists in Hl as (x & Hin & Heq).
  apply Z.eqb_eq in Heq. subst x. apply list_elem_of_In.
  vm_compute in Hin. vm_compute. exact Hin.
Qed.

Lemma main_yields_every_legal_move_once_witness :
  yielded (SS := mergeSort) MAIN WHITE posA Kg1 Nb3 Kh2 Kg2
  ≡ₚ genMove <$> legalMoves posA WHITE ALL_MOVES.
Proof.
  apply (main_yields_every_legal_move_once (SS := mergeSort)
           WHITE posA Kg1 Nb3 Kh2 Kg2).
  - exact posA_gen_all_nodup.
  - reflexivity.
  - exact posA_gen_tactical.
  - exact posA_quiet_not_tactical.
  - exact posA_legal_iff.
  - reflexivity.
  - left. discriminate.
Defined.

Lemma scoreQuiet_negative_iff_promotion_witness :
  (scoreQuiet WHITE posA (threatened WHITE posA) Nb3 < 0
   <-> moveType Nb3 = PROMOTION)
  /\ (moveType Nb3 = PROMOTION ->
      scoreQuiet WHITE posA (threatened WHITE posA) Nb3 = -100)
  /\ (forall sm, move sm = Nb3 ->
                 score sm = scoreQuiet WHITE posA (threatened WHITE posA) Nb3 ->
                 (deferQuiet sm = true <-> moveType Nb3 = PROMOTION)).
Proof.
  apply (scoreQuiet_negative_iff_promotion WHITE posA
           (threatened WHITE posA) Nb3).
  vm_compute. split; discriminate.
Defined.

Lemma main_tail_is_one_sorted_array_witness :
  exists gq bt bq : list ScoredMove,
    yielded (SS := mergeSort) MAIN WHITE posA Kg1 Nb3 Kh2 Kg2
    = (move <$> (ttStage WHITE posA Kg1
                 ++ goodTacticals (SS := mergeSort) MAIN WHITE posA Kg1
                 ++ killer1Stage WHITE posA Kg1 Nb3
                 ++ killer2Stage WHITE posA Kg1 Kh2
                 ++ counterStage WHITE posA Kg1 Nb3 Kh2 Kg2))
      ++ (move <$> gq) ++ (move <$> bt) ++ (move <$> bq)
    /\ gq ++ bt ++ bq
       ≡ₚ badTacticals (SS := mergeSort) MAIN WHITE posA Kg1
          ++ quietMoves WHITE posA Kg1 Nb3 Kh2 Kg2
    /\ length bt = length (badTacticals (SS := mergeSort) MAIN WHITE posA Kg1)
    /\ (forall a b, a ∈ bt -> b ∈ gq ++ bq -> score b <= score a)
    /\ Forall (fun sm => 0 <= score sm) gq
    /\ Forall (fun sm => score sm < 0) bq
    /\ StronglySorted (fun a b => score b <= score a) gq
    /\ StronglySorted (fun a b => score b <= score a) bt
    /\ StronglySorted (fun a b => score b <= score a) bq.
Proof.
  apply (main_tail_is_one_sorted_array (SS := mergeSort)
           WHITE posA Kg1 Nb3 Kh2 Kg2).
  reflexivity.
Defined.

Lemma equal_killers_are_yielded_twice_witness :
  exists before after,
    yielded (SS := mergeSort) MAIN WHITE posA Kg1 Nb3 Nb3 Kg2
    = before ++ Nb3 :: Nb3 :: after
    /\ ~ NoDup (yielded (SS := mergeSort) MAIN WHITE posA Kg1 Nb3 Nb3 Kg2).
Proof.
  apply (equal_killers_are_yielded_twice (SS := mergeSort)
           WHITE posA Kg1 Nb3 Kg2).
  - reflexivity.
  - discriminate.
  - reflexivity.
  - reflexivity.
Defined.

End MovePickerExtras.
